(** * Praxis CRM, sales module: stage transitions and commercial targets

    Shallow embedding of [apps/sales/services.py].  The Django ORM and
    Python's [decimal] module are modelled as far as the service functions
    use them:

    - a [Decimal] is a signed coefficient with a power-of-ten exponent;
      arithmetic follows the default context of the [decimal] module
      (28 significant digits, ROUND_HALF_EVEN);
    - a table is a finite map from primary keys to rows;
    - a service function that can raise returns a [Resultado]. *)

From Stdlib Require Import ZArith QArith Qround Qpower Lia Lqa Bool.
From stdpp Require Import base option strings list gmap fin_maps.

Local Open Scope Z_scope.

(** ** Python's [decimal.Decimal] under the default context *)

Module Dec.

Record Decimal : Type := mkDecimal { coef : Z; expo : Z }.

#[global] Instance Decimal_eq_dec : EqDecision Decimal.
Proof. solve_decision. Defined.

(** [getcontext().prec] *)
Definition prec : Z := 28.

(** [len(str(n))] for a non-negative integer; the fuel is the bit length,
    which bounds the number of decimal digits. *)
Fixpoint ndigits_fuel (fuel : nat) (n : Z) : Z :=
  match fuel with
  | O => 1
  | S f => if n <? 10 then 1 else 1 + ndigits_fuel f (n / 10)
  end.

Definition ndigits (n : Z) : Z := ndigits_fuel (Z.to_nat (Z.log2 n)) n.

(** Nearest integer to [a / m], ties to the even neighbour
    (ROUND_HALF_EVEN applied to the digits dropped by a division by [m]). *)
Definition rhe_div (a m : Z) : Z :=
  let q := a / m in
  let r := a mod m in
  match 2 * r ?= m with
  | Lt => q
  | Gt => q + 1
  | Eq => if Z.even q then q else q + 1
  end.

(** [Decimal._fix]: round to the context precision.  The exponent limits
    Emin/Emax (about 10^6 in magnitude) are not modelled. *)
Definition fix_ (d : Decimal) : Decimal :=
  let n := ndigits (Z.abs (coef d)) in
  if n <=? prec then d
  else
    let k := n - prec in
    let c := rhe_div (Z.abs (coef d)) (10 ^ k) in
    if c =? 10 ^ prec
    then mkDecimal (Z.sgn (coef d) * 10 ^ (prec - 1)) (expo d + k + 1)
    else mkDecimal (Z.sgn (coef d) * c) (expo d + k).

(** [Decimal.__mul__] *)
Definition mul (a b : Decimal) : Decimal :=
  fix_ (mkDecimal (coef a * coef b) (expo a + expo b)).

(** The loop of [Decimal.__truediv__] that removes trailing zeros of an
    exact quotient while the exponent is below the ideal one. *)
Fixpoint strip_zeros (fuel : nat) (c e ideal : Z) : Z * Z :=
  match fuel with
  | O => (c, e)
  | S f =>
      if (e <? ideal) && (c mod 10 =? 0)
      then strip_zeros f (c / 10) (e + 1) ideal
      else (c, e)
  end.

(** [Decimal.__truediv__]; [None] is the exception raised for a zero
    divisor (DivisionByZero or InvalidOperation). *)
Definition div (a b : Decimal) : option Decimal :=
  if coef b =? 0 then None
  else if coef a =? 0 then Some (fix_ (mkDecimal 0 (expo a - expo b)))
  else
    let A := Z.abs (coef a) in
    let B := Z.abs (coef b) in
    let sign := Z.sgn (coef a) * Z.sgn (coef b) in
    let shift := ndigits B - ndigits A + prec + 1 in
    let e := expo a - expo b - shift in
    let '(c, r) :=
      if 0 <=? shift
      then Z.div_eucl (A * 10 ^ shift) B
      else Z.div_eucl A (B * 10 ^ (- shift)) in
    let '(c, e) :=
      if r =? 0
      then strip_zeros (Z.to_nat (ndigits c)) c e (expo a - expo b)
      else (if c mod 5 =? 0 then c + 1 else c, e) in
    Some (fix_ (mkDecimal (sign * c) e)).

(** [Decimal._cmp]: exact comparison of the two values. *)
Definition compare (a b : Decimal) : comparison :=
  let m := Z.min (expo a) (expo b) in
  (coef a * 10 ^ (expo a - m)) ?= (coef b * 10 ^ (expo b - m)).

Definition leb (a b : Decimal) : bool :=
  match compare a b with Gt => false | _ => true end.
Definition ltb (a b : Decimal) : bool :=
  match compare a b with Lt => true | _ => false end.
Definition geb (a b : Decimal) : bool := leb b a.
Definition gtb (a b : Decimal) : bool := ltb b a.

(** Python truthiness of a Decimal: false exactly for a zero. *)
Definition truthy (a : Decimal) : bool := negb (coef a =? 0).

(** [Decimal(n)] for a Python int. *)
Definition of_int (n : Z) : Decimal := mkDecimal n 0.

(** [Decimal._rescale(e, ROUND_HALF_EVEN)] *)
Definition rescale (x : Decimal) (e : Z) : Decimal :=
  if e <=? expo x
  then mkDecimal (coef x * 10 ^ (expo x - e)) e
  else mkDecimal (Z.sgn (coef x) * rhe_div (Z.abs (coef x)) (10 ^ (e - expo x))) e.

(** [Decimal.quantize(Decimal((0, (1,), e)))]; [None] is InvalidOperation
    ("quantize result has too many digits for current context"). *)
Definition quantize (x : Decimal) (e : Z) : option Decimal :=
  if coef x =? 0 then Some (mkDecimal 0 e)
  else if prec <? (expo x + ndigits (Z.abs (coef x)) - 1) - e + 1 then None
  else
    let ans := rescale x e in
    if prec <? ndigits (Z.abs (coef ans)) then None else Some ans.

(** [round(x, n)] for a Decimal [x] ([Decimal.__round__] with [ndigits]). *)
Definition round (x : Decimal) (n : Z) : option Decimal := quantize x (- n).

(** The rational number a Decimal denotes. *)
Definition dval (d : Decimal) : Q :=
  (inject_Z (coef d) * (10 # 1) ^ expo d)%Q.

End Dec.

Import Dec.

(** ** Data model *)

(** Modelled from the spec: [apps/core/enums.py] is not among the sources;
    the six stages are those of the data model, under the names
    [services.py] uses. *)
Inductive EtapaOportunidade : Type :=
  | PROSPECCAO | QUALIFICACAO | PROPOSTA | NEGOCIACAO | FECHAMENTO | PERDIDA.

#[global] Instance EtapaOportunidade_eq_dec : EqDecision EtapaOportunidade.
Proof. solve_decision. Defined.

(** A timestamp in the current time zone: the two components the queries
    look at, and the rest of it. *)
Record DataHora : Type := mkDataHora { year : Z; month : Z; resto : Z }.

#[global] Instance DataHora_eq_dec : EqDecision DataHora.
Proof. solve_decision. Defined.

(** Modelled from the spec: [apps/sales/models.py] is not among the
    sources; an [Oportunidade] row has the attributes of the data model,
    users and clients are referred to by primary key, and [atualizado_em]
    is refreshed by every save that writes it. *)
Record Oportunidade : Type := mkOportunidade {
  pk : Z;
  titulo : string;
  cliente : Z;
  vendedor : Z;
  valor_estimado : Decimal;
  descricao : string;
  etapa : EtapaOportunidade;
  criado_em : DataHora;
  atualizado_em : DataHora
}.

(** Modelled from the spec: the row of a commercial target. *)
Record MetaComercial : Type := mkMetaComercial {
  meta_pk : Z;
  meta_vendedor : Z;
  mes : Z;
  ano : Z;
  valor_meta : Decimal
}.

#[global] Instance MetaComercial_eq_dec : EqDecision MetaComercial.
Proof. solve_decision. Defined.

(** The exceptions the service functions can raise. *)
Inductive Excecao : Type :=
  | ValidationError (msg : string)
  | ValueError            (* [list.index]: the value is not in the list *)
  | IndexError            (* list subscript out of range *)
  | DatabaseError         (* [save(update_fields=...)] affected no row *)
  | MultipleObjectsReturned
  | InvalidOperation      (* decimal: quantize result has too many digits *)
  | DivisionByZero.

Inductive Resultado (A : Type) : Type :=
  | Retorna (a : A)
  | Levanta (e : Excecao).
Arguments Retorna {A} a.
Arguments Levanta {A} e.

(** ** Stage transitions *)

Definition ORDEM_ETAPAS : list EtapaOportunidade :=
  [PROSPECCAO; QUALIFICACAO; PROPOSTA; NEGOCIACAO; FECHAMENTO].

(** [list.index]: position of the first element equal to [x]. *)
Fixpoint index (x : EtapaOportunidade) (l : list EtapaOportunidade) : option nat :=
  match l with
  | [] => None
  | y :: l' => if decide (y = x) then Some O else S <$> index x l'
  end.

(** The state a transition works on: the model instance the caller holds
    (a Python object, mutated in place) and the table behind it. *)
Record Mundo : Type := mkMundo {
  objeto : Oportunidade;
  tabela : gmap Z Oportunidade
}.

(** State and exception monad of the transitions: an exception leaves the
    state as it was when it was raised. *)
Definition M (A : Type) : Type := Mundo -> Resultado A * Mundo.

Definition ret {A} (a : A) : M A := fun w => (Retorna a, w).
Definition raise {A} (e : Excecao) : M A := fun w => (Levanta e, w).
Definition bind {A B} (m : M A) (k : A -> M B) : M B :=
  fun w => match m w with
           | (Retorna a, w') => k a w'
           | (Levanta e, w') => (Levanta e, w')
           end.

Notation "x <- m ;; k" := (bind m (fun x => k))
  (at level 100, m at level 99, right associativity).
Notation "m ;;; k" := (bind m (fun _ => k))
  (at level 100, right associativity).

Definition le_etapa : M EtapaOportunidade := fun w => (Retorna (etapa (objeto w)), w).

Definition com_etapa (o : Oportunidade) (e : EtapaOportunidade) : Oportunidade :=
  mkOportunidade (pk o) (titulo o) (cliente o) (vendedor o) (valor_estimado o)
                 (descricao o) e (criado_em o) (atualizado_em o).

Definition com_atualizado_em (o : Oportunidade) (t : DataHora) : Oportunidade :=
  mkOportunidade (pk o) (titulo o) (cliente o) (vendedor o) (valor_estimado o)
                 (descricao o) (etapa o) (criado_em o) t.

(** [oportunidade.etapa = e] *)
Definition atribui_etapa (e : EtapaOportunidade) : M unit :=
  fun w => (Retorna tt, mkMundo (com_etapa (objeto w) e) (tabela w)).

(** The columns of the table, as [update_fields] names them. *)
Inductive Campo : Type :=
  | campo_titulo | campo_cliente | campo_vendedor | campo_valor_estimado
  | campo_descricao | campo_etapa | campo_criado_em | campo_atualizado_em.

#[global] Instance Campo_eq_dec : EqDecision Campo.
Proof. solve_decision. Defined.

(** The row after the UPDATE of one column with the instance's value. *)
Definition grava_campo (o : Oportunidade) (linha : Oportunidade) (c : Campo) : Oportunidade :=
  match c with
  | campo_titulo =>
      mkOportunidade (pk linha) (titulo o) (cliente linha) (vendedor linha)
        (valor_estimado linha) (descricao linha) (etapa linha)
        (criado_em linha) (atualizado_em linha)
  | campo_cliente =>
      mkOportunidade (pk linha) (titulo linha) (cliente o) (vendedor linha)
        (valor_estimado linha) (descricao linha) (etapa linha)
        (criado_em linha) (atualizado_em linha)
  | campo_vendedor =>
      mkOportunidade (pk linha) (titulo linha) (cliente linha) (vendedor o)
        (valor_estimado linha) (descricao linha) (etapa linha)
        (criado_em linha) (atualizado_em linha)
  | campo_valor_estimado =>
      mkOportunidade (pk linha) (titulo linha) (cliente linha) (vendedor linha)
        (valor_estimado o) (descricao linha) (etapa linha)
        (criado_em linha) (atualizado_em linha)
  | campo_descricao =>
      mkOportunidade (pk linha) (titulo linha) (cliente linha) (vendedor linha)
        (valor_estimado linha) (descricao o) (etapa linha)
        (criado_em linha) (atualizado_em linha)
  | campo_etapa => com_etapa linha (etapa o)
  | campo_criado_em =>
      mkOportunidade (pk linha) (titulo linha) (cliente linha) (vendedor linha)
        (valor_estimado linha) (descricao linha) (etapa linha)
        (criado_em o) (atualizado_em linha)
  | campo_atualizado_em => com_atualizado_em linha (atualizado_em o)
  end.

(** [Model.save(update_fields=campos)] at time [agora], for a non-empty
    list of columns: the auto-now column, when it is among them, is first
    set on the instance; then the listed columns of the row with the
    instance's primary key are overwritten.  Django raises DatabaseError
    when the UPDATE affects no row. *)
Definition save (agora : DataHora) (update_fields : list Campo) : M unit :=
  fun w =>
    let o := if decide (campo_atualizado_em ∈ update_fields)
             then com_atualizado_em (objeto w) agora
             else objeto w in
    match tabela w !! pk o with
    | None => (Levanta DatabaseError, mkMundo o (tabela w))
    | Some linha =>
        (Retorna tt,
         mkMundo o (<[pk o := foldl (grava_campo o) linha update_fields]> (tabela w)))
    end.

Definition devolve_objeto : M Oportunidade := fun w => (Retorna (objeto w), w).

Definition de_opcao {A} (e : Excecao) (x : option A) : M A :=
  match x with Some a => ret a | None => raise e end.

Definition avancar_etapa (agora : DataHora) : M Oportunidade :=
  e <- le_etapa ;;
  (if decide (e = PERDIDA)
   then raise (ValidationError "Oportunidade perdida não pode avançar.")
   else ret tt) ;;;
  e <- le_etapa ;;
  (if decide (e = FECHAMENTO)
   then raise (ValidationError "Oportunidade já está na etapa final.")
   else ret tt) ;;;
  e <- le_etapa ;;
  idx_atual <- de_opcao ValueError (index e ORDEM_ETAPAS) ;;
  proxima <- de_opcao IndexError (ORDEM_ETAPAS !! (idx_atual + 1)%nat) ;;
  atribui_etapa proxima ;;;
  save agora [campo_etapa; campo_atualizado_em] ;;;
  devolve_objeto.

Definition marcar_perdida (agora : DataHora) : M Oportunidade :=
  e <- le_etapa ;;
  (if decide (e = FECHAMENTO)
   then raise (ValidationError "Oportunidade fechada não pode ser marcada como perdida.")
   else ret tt) ;;;
  atribui_etapa PERDIDA ;;;
  save agora [campo_etapa; campo_atualizado_em] ;;;
  devolve_objeto.

(** ** Commercial targets *)

(** The rows of a table in retrieval order. *)
Definition rows {A} (t : gmap Z A) : list A := (map_to_list t).*2.

(** Addition as the database does it for the SUM aggregate: exact. *)
Definition soma (a b : Decimal) : Decimal :=
  let m := Z.min (expo a) (expo b) in
  mkDecimal (coef a * 10 ^ (expo a - m) + coef b * 10 ^ (expo b - m)) m.

(** [aggregate(total=Sum(...))["total"]]: NULL (None) over no rows. *)
Definition Sum (l : list Decimal) : option Decimal :=
  match l with
  | [] => None
  | x :: l' => Some (foldl soma x l')
  end.

(** [total or d] *)
Definition total_or (total : option Decimal) (d : Decimal) : Decimal :=
  match total with
  | Some t => if truthy t then t else d
  | None => d
  end.

Definition calcular_realizado (ops : gmap Z Oportunidade) (vend m a : Z) : Decimal :=
  let total :=
    Sum (valor_estimado <$>
         filter (λ o, vendedor o = vend ∧ etapa o = FECHAMENTO ∧
                      month (atualizado_em o) = m ∧ year (atualizado_em o) = a)
                (rows ops)) in
  total_or total (mkDecimal 0 (-2)).

Definition calcular_pipeline (ops : gmap Z Oportunidade) (vend m a : Z) : Decimal :=
  let total :=
    Sum (valor_estimado <$>
         filter (λ o, etapa o ∉ [FECHAMENTO; PERDIDA])
           (filter (λ o, vendedor o = vend ∧
                         month (criado_em o) = m ∧ year (criado_em o) = a)
                   (rows ops))) in
  total_or total (mkDecimal 0 (-2)).

Definition calcular_status_meta (valor_meta pipeline : Decimal) : string :=
  if leb valor_meta (of_int 0) then "OK"
  else if geb pipeline (mul valor_meta (mkDecimal 15 (-1))) then "OK"
  else if geb pipeline valor_meta then "ATENCAO"
  else "RISCO".

(** The tables the target functions read. *)
Record Banco : Type := mkBanco {
  oportunidades : gmap Z Oportunidade;
  metas : gmap Z MetaComercial
}.

(** [x or y] for an optional int [x]: None and 0 are falsy. *)
Definition int_or (x : option Z) (y : Z) : Z :=
  match x with
  | Some v => if v =? 0 then y else v
  | None => y
  end.

(** The month and year both target functions work with, [hoje] being
    what [timezone.now()] returns when it is called. *)
Definition resolve_mes_ano (hoje : DataHora) (m a : option Z) : Z * Z :=
  match m, a with
  | Some m', Some a' => (m', a')
  | _, _ => (int_or m (month hoje), int_or a (year hoje))
  end.

(** [MetaComercial.objects.get(vendedor=..., mes=..., ano=...)]; [None]
    stands for DoesNotExist, which the caller catches. *)
Definition objects_get (ms : gmap Z MetaComercial) (vend m a : Z)
  : Resultado (option MetaComercial) :=
  match filter (λ x, meta_vendedor x = vend ∧ mes x = m ∧ ano x = a) (rows ms) with
  | [] => Retorna None
  | [x] => Retorna (Some x)
  | _ => Levanta MultipleObjectsReturned
  end.

(** The dict [obter_meta_vendedor] returns, key by key. *)
Record DadosMeta : Type := mkDadosMeta {
  dados_meta : option MetaComercial;
  dados_valor_meta : Decimal;
  dados_realizado : Decimal;
  dados_pipeline : Decimal;
  dados_percentual : Decimal;
  dados_status : string;
  dados_mes : Z;
  dados_ano : Z
}.

(** [round((realizado / valor_meta) * 100, 1)] under [valor_meta > 0],
    [Decimal("0.0")] otherwise. *)
Definition percentual_de (realizado valor_meta : Decimal) : Resultado Decimal :=
  if gtb valor_meta (of_int 0) then
    match div realizado valor_meta with
    | None => Levanta DivisionByZero
    | Some q =>
        match round (mul q (of_int 100)) 1 with
        | None => Levanta InvalidOperation
        | Some p => Retorna p
        end
    end
  else Retorna (mkDecimal 0 (-1)).

Definition obter_meta_vendedor (hoje : DataHora) (bd : Banco)
    (vend : Z) (m a : option Z) : Resultado DadosMeta :=
  let '(m, a) := resolve_mes_ano hoje m a in
  match objects_get (metas bd) vend m a with
  | Levanta e => Levanta e
  | Retorna meta =>
      let valor_meta :=
        match meta with
        | Some x => valor_meta x
        | None => mkDecimal 0 (-2)
        end in
      let realizado := calcular_realizado (oportunidades bd) vend m a in
      let pipeline := calcular_pipeline (oportunidades bd) vend m a in
      match percentual_de realizado valor_meta with
      | Levanta e => Levanta e
      | Retorna percentual =>
          let status := calcular_status_meta valor_meta pipeline in
          Retorna (mkDadosMeta meta valor_meta realizado pipeline
                     percentual status m a)
      end
  end.

(** The loop of [listar_metas_vendedores]: [i] counts the calls made so
    far and [relogio i] is what the clock shows during call [i]. *)
Fixpoint laco_metas (relogio : nat -> DataHora) (bd : Banco) (m a : Z)
    (i : nat) (ms : list MetaComercial) (resultado : list DadosMeta)
  : Resultado (list DadosMeta) :=
  match ms with
  | [] => Retorna resultado
  | meta :: ms' =>
      match obter_meta_vendedor (relogio i) bd (meta_vendedor meta) (Some m) (Some a) with
      | Levanta e => Levanta e
      | Retorna dados => laco_metas relogio bd m a (S i) ms' (resultado ++ [dados])
      end
  end.

Definition listar_metas_vendedores (hoje : DataHora) (relogio : nat -> DataHora)
    (bd : Banco) (m a : option Z) : Resultado (list DadosMeta * Z * Z) :=
  let '(m, a) := resolve_mes_ano hoje m a in
  let ms := filter (λ x, mes x = m ∧ ano x = a) (rows (metas bd)) in
  match laco_metas relogio bd m a O ms [] with
  | Levanta e => Levanta e
  | Retorna resultado => Retorna (resultado, m, a)
  end.

(** ** Reference notions: exact rounding, sums and the frame of a transition *)

(** Nearest integer to a rational, ties to the even neighbour. *)
Definition round_half_even (q : Q) : Z :=
  let f := Qfloor q in
  match (q - inject_Z f ?= 1 # 2)%Q with
  | Lt => f
  | Gt => f + 1
  | Eq => if Z.even f then f else f + 1
  end.

(** The value of a rational rounded to one decimal place. *)
Definition round_1_place (q : Q) : Q :=
  (inject_Z (round_half_even (q * inject_Z 10)) / inject_Z 10)%Q.

(** [r] is a nearest integer to [a / m], an even one at a tie. *)
Definition nearest_even (a m r : Z) : Prop :=
  2 * r * m - m <= 2 * a <= 2 * r * m + m /\
  (2 * a = 2 * r * m - m \/ 2 * a = 2 * r * m + m -> Z.even r = true).

(** Sum of the values of a list of Decimals. *)
Definition sumQ (l : list Decimal) : Q :=
  foldr (λ d acc, (dval d + acc)%Q) 0%Q l.

(** Sum of the estimated values of the rows that satisfy [P]. *)
Definition sum_where (P : Oportunidade -> Prop) `{!∀ o, Decision (P o)}
    (l : list Oportunidade) : Q :=
  foldr (λ o acc, if decide (P o) then (dval (valor_estimado o) + acc)%Q else acc) 0%Q l.

(** A closed-won opportunity of the seller, updated in the month. *)
Definition fechada_no_mes (vend m a : Z) (o : Oportunidade) : Prop :=
  vendedor o = vend ∧ etapa o = FECHAMENTO ∧
  month (atualizado_em o) = m ∧ year (atualizado_em o) = a.

(** An open opportunity of the seller, created in the month. *)
Definition aberta_do_mes (vend m a : Z) (o : Oportunidade) : Prop :=
  vendedor o = vend ∧ month (criado_em o) = m ∧ year (criado_em o) = a ∧
  etapa o ≠ FECHAMENTO ∧ etapa o ≠ PERDIDA.

#[global] Instance fechada_no_mes_dec vend m a o : Decision (fechada_no_mes vend m a o).
Proof. unfold fechada_no_mes. apply _. Defined.

#[global] Instance aberta_do_mes_dec vend m a o : Decision (aberta_do_mes vend m a o).
Proof. unfold aberta_do_mes. apply _. Defined.

(** [ks] lists the keys of the table, each of them once. *)
Definition chaves_de {A} (t : gmap Z A) (ks : list Z) : Prop :=
  NoDup ks ∧ ∀ k, k ∈ ks ↔ is_Some (t !! k).

(** Sum of the estimated values of the rows stored under the keys [ks]
    that satisfy [P], read from the table key by key. *)
Definition soma_chaves (P : Oportunidade -> Prop) `{!∀ o, Decision (P o)}
    (t : gmap Z Oportunidade) (ks : list Z) : Q :=
  foldr (λ k acc,
           match t !! k with
           | Some o => if decide (P o) then (dval (valor_estimado o) + acc)%Q else acc
           | None => acc
           end) 0%Q ks.

(** The target of a seller for a period, as the table has it: [Some x]
    when [x] is a row for the seller and the period and no row under
    another key is, [None] when no row is. *)
Definition meta_unica (ms : gmap Z MetaComercial) (vend m a : Z)
    (meta : option MetaComercial) : Prop :=
  match meta with
  | Some x =>
      (∃ k, ms !! k = Some x) ∧
      (meta_vendedor x = vend ∧ mes x = m ∧ ano x = a) ∧
      (∀ k1 k2 x1 x2, ms !! k1 = Some x1 -> ms !! k2 = Some x2 ->
         meta_vendedor x1 = vend ∧ mes x1 = m ∧ ano x1 = a ->
         meta_vendedor x2 = vend ∧ mes x2 = m ∧ ano x2 = a -> k1 = k2)
  | None =>
      ∀ k x, ms !! k = Some x ->
             ¬ (meta_vendedor x = vend ∧ mes x = m ∧ ano x = a)
  end.

(** The columns of a row other than the stage and the update time. *)
Definition outros_campos (o : Oportunidade)
  : Z * string * Z * Z * Decimal * string * DataHora :=
  (pk o, titulo o, cliente o, vendedor o, valor_estimado o, descricao o,
   criado_em o).

(** What a successful transition leaves in the table: the row of the
    instance has the instance's stage and the time of the save, its
    other columns are those it had, and no other row has changed. *)
Definition so_etapa_e_atualizado (agora : DataHora) (w w' : Mundo) : Prop :=
  ∃ linha linha',
    tabela w !! pk (objeto w) = Some linha ∧
    tabela w' !! pk (objeto w) = Some linha' ∧
    outros_campos linha' = outros_campos linha ∧
    etapa linha' = etapa (objeto w') ∧
    atualizado_em linha' = agora ∧
    (∀ k, k ≠ pk (objeto w) -> tabela w' !! k = tabela w !! k) ∧
    outros_campos (objeto w') = outros_campos (objeto w).

(** ** A small database, used to run the functions on concrete input

    Seller 7 has a target of 1000.00 for June 2024, one opportunity closed
    in June (600.00) and one open opportunity created in June (1200.00);
    seller 8 has no target, one lost and one open opportunity (300.00). *)

Module Cenario.

Definition junho : DataHora := mkDataHora 2024 6 15.
Definition julho : DataHora := mkDataHora 2024 7 2.

Definition fechada : Oportunidade :=
  mkOportunidade 1 "Contrato anual" 10 7 (mkDecimal 60000 (-2)) ""
                 FECHAMENTO junho junho.
Definition aberta : Oportunidade :=
  mkOportunidade 2 "Expansao" 11 7 (mkDecimal 120000 (-2)) "segunda fase"
                 PROPOSTA junho junho.
Definition perdida : Oportunidade :=
  mkOportunidade 3 "Piloto" 12 8 (mkDecimal 5000 (-2)) ""
                 PERDIDA junho junho.

Definition sem_meta : Oportunidade :=
  mkOportunidade 4 "Renovacao" 12 8 (mkDecimal 30000 (-2)) ""
                 NEGOCIACAO junho junho.

Definition ops : gmap Z Oportunidade :=
  <[4 := sem_meta]> (<[3 := perdida]> (<[2 := aberta]> (<[1 := fechada]> ∅))).

Definition meta7 : MetaComercial :=
  mkMetaComercial 1 7 6 2024 (mkDecimal 100000 (-2)).

Definition banco : Banco := mkBanco ops (<[1 := meta7]> ∅).

End Cenario.

(** ** Creating an opportunity ([criar_oportunidade])

    [Oportunidade.objects.create(...)]: the instance is built from the
    arguments as they are given, with stage PROSPECCAO; the creation and
    the update time are read from the clock when the row is written, one
    reading each; the database assigns the primary key [novo_pk], stores
    the row, and the instance is returned.

    The declaration of the column [valor_estimado] is not among the
    sources.  [coluna v] stands for it: the value that column holds for
    [v] (a fixed-point column holds it at its own scale), or the error
    the store raises for [v], in which case no row is written.  The
    instance keeps the value it was given. *)
Definition criar_oportunidade (coluna : Decimal -> Resultado Decimal)
    (criado atualizado : DataHora) (novo_pk : Z)
    (titulo : string) (cliente vendedor : Z) (valor_estimado : Decimal)
    (descricao : string) (t : gmap Z Oportunidade)
  : Resultado Oportunidade * gmap Z Oportunidade :=
  match coluna valor_estimado with
  | Levanta e => (Levanta e, t)
  | Retorna guardado =>
      (Retorna (mkOportunidade novo_pk titulo cliente vendedor valor_estimado
                  descricao PROSPECCAO criado atualizado),
       <[novo_pk := mkOportunidade novo_pk titulo cliente vendedor guardado
                      descricao PROSPECCAO criado atualizado]> t)
  end.

(** A column of two decimal places within the precision of the decimal
    context: the value rounded half-even to the exponent -2. *)
Definition coluna_2_casas (v : Decimal) : Resultado Decimal :=
  match quantize v (-2) with
  | Some r => Retorna r
  | None => Levanta InvalidOperation
  end.

(** ** The views that change a stage ([apps/sales/views.py])

    Only the [post] methods are modelled; what the mixins of
    [apps/core/mixins.py] do before [post] runs is not among the sources. *)

(** [request.user]: its primary key and, when the user has a [perfil],
    that profile's [is_vendedor]. *)
Record Usuario : Type := mkUsuario { user_pk : Z; perfil : option bool }.

(** [hasattr(request.user, "perfil") and request.user.perfil.is_vendedor] *)
Definition eh_vendedor (u : Usuario) : bool :=
  match perfil u with
  | Some is_vendedor => is_vendedor
  | None => false
  end.

Inductive ExcecaoView : Type :=
  | Http404                   (* [get_object_or_404] found no row *)
  | PermissionDenied
  | DoServico (e : Excecao).  (* raised by the service, not caught *)

Inductive Resposta : Type :=
  | Redirect (nome : string) (pk : Z)
  | Falha (e : ExcecaoView).

Definition OportunidadeAvancarView_post (agora : DataHora) (user : Usuario)
    (pk : Z) (t : gmap Z Oportunidade) : Resposta * gmap Z Oportunidade :=
  match t !! pk with
  | None => (Falha Http404, t)
  | Some oportunidade =>
      if eh_vendedor user && negb (bool_decide (vendedor oportunidade = user_pk user))
      then (Falha PermissionDenied, t)
      else
        match avancar_etapa agora (mkMundo oportunidade t) with
        | (Retorna _, w) => (Redirect "sales:oportunidade_detail" pk, tabela w)
        | (Levanta e, w) => (Falha (DoServico e), tabela w)
        end
  end.

Definition OportunidadePerdidaView_post (agora : DataHora) (user : Usuario)
    (pk : Z) (t : gmap Z Oportunidade) : Resposta * gmap Z Oportunidade :=
  match t !! pk with
  | None => (Falha Http404, t)
  | Some oportunidade =>
      if eh_vendedor user && negb (bool_decide (vendedor oportunidade = user_pk user))
      then (Falha PermissionDenied, t)
      else
        match marcar_perdida agora (mkMundo oportunidade t) with
        | (Retorna _, w) => (Redirect "sales:oportunidade_detail" pk, tabela w)
        | (Levanta e, w) => (Falha (DoServico e), tabela w)
        end
  end.

(** The two routes of [urls.py] that reach these views:
    [oportunidades/<int:pk>/avancar/] and [oportunidades/<int:pk>/perdida/]. *)
Inductive Rota : Type := oportunidade_avancar | oportunidade_perdida.

(** A POST request: route, user, primary key in the URL, time of arrival. *)
Record Requisicao : Type := mkRequisicao {
  req_rota : Rota;
  req_user : Usuario;
  req_pk : Z;
  req_agora : DataHora
}.

Definition atende (r : Requisicao) (t : gmap Z Oportunidade)
  : Resposta * gmap Z Oportunidade :=
  match req_rota r with
  | oportunidade_avancar =>
      OportunidadeAvancarView_post (req_agora r) (req_user r) (req_pk r) t
  | oportunidade_perdida =>
      OportunidadePerdidaView_post (req_agora r) (req_user r) (req_pk r) t
  end.

(** The table after a sequence of requests, served one after the other. *)
Definition atende_todas (l : list Requisicao) (t : gmap Z Oportunidade)
  : gmap Z Oportunidade :=
  foldl (λ t r, (atende r t).2) t l.

(** Every row is stored under its own primary key. *)
Definition bem_formada (t : gmap Z Oportunidade) : Prop :=
  ∀ k o, t !! k = Some o -> pk o = k.

(** Position of a stage in the pipeline, PERDIDA after all the others. *)
Definition posicao (e : EtapaOportunidade) : nat :=
  match e with
  | PROSPECCAO => 0 | QUALIFICACAO => 1 | PROPOSTA => 2
  | NEGOCIACAO => 3 | FECHAMENTO => 4 | PERDIDA => 5
  end.

(** What requests can do to a row: the columns other than stage and
    update time stay, a closed row stays as it is, a lost row stays
    lost, and the stage does not move backwards. *)
Definition evolui (o o' : Oportunidade) : Prop :=
  outros_campos o' = outros_campos o ∧
  (etapa o = FECHAMENTO -> o' = o) ∧
  (etapa o = PERDIDA -> etapa o' = PERDIDA) ∧
  (posicao (etapa o) <= posicao (etapa o'))%nat.

(** Successive calls of [avancar_etapa] on the same instance, one per
    time of the list; a call that raises leaves the state it reached. *)
Definition avancar_varias (l : list DataHora) (w : Mundo) : Mundo :=
  foldl (λ w agora, (avancar_etapa agora w).2) w l.

(** The three statuses from worst to best. *)
Definition nivel (status : string) : nat :=
  if decide (status = "OK") then 2
  else if decide (status = "ATENCAO") then 1
  else 0.

(** ** [config/settings/prod.py]: the allowed hosts

    A Python [str] is the list of its code points. *)

Module Hosts.

(** [str.isspace] of one character: the white space of Unicode. *)
Definition isspace (c : Z) : bool :=
  ((9 <=? c) && (c <=? 13)) || ((28 <=? c) && (c <=? 32)) ||
  (c =? 133) || (c =? 160) || (c =? 5760) ||
  ((8192 <=? c) && (c <=? 8202)) || (c =? 8232) || (c =? 8233) ||
  (c =? 8239) || (c =? 8287) || (c =? 12288).

Fixpoint lstrip (s : list Z) : list Z :=
  match s with
  | [] => []
  | c :: s' => if isspace c then lstrip s' else s
  end.

Definition rstrip (s : list Z) : list Z := reverse (lstrip (reverse s)).

(** [s.strip()] *)
Definition strip (s : list Z) : list Z := rstrip (lstrip s).

(** [s.split(sep)] for a separator of one character: the pieces between
    the separators, at least one piece. *)
Fixpoint split (sep : Z) (s : list Z) : list (list Z) :=
  match s with
  | [] => [[]]
  | c :: s' =>
      if c =? sep then [] :: split sep s'
      else match split sep s' with
           | p :: ps => (c :: p) :: ps
           | [] => [[c]]
           end
  end.

(** [sep.join(l)] *)
Fixpoint join (sep : Z) (l : list (list Z)) : list Z :=
  match l with
  | [] => []
  | [p] => p
  | p :: l' => p ++ sep :: join sep l'
  end.

Definition comma : Z := 44.

(** [os.getenv(name, default)] with the empty string as default *)
Definition getenv (environ : gmap string (list Z)) (name : string) : list Z :=
  default [] (environ !! name).

(** The comprehension [h.strip() for h in ... .split(",") if h.strip()]
    over the value of [DJANGO_ALLOWED_HOSTS]; an empty string is falsy. *)
Definition ALLOWED_HOSTS (environ : gmap string (list Z)) : list (list Z) :=
  strip <$> filter (λ h, strip h ≠ [])
                   (split comma (getenv environ "DJANGO_ALLOWED_HOSTS")).

End Hosts.

(** The outcome of a request, case by case, on a well-formed table. *)
Inductive atendida (r : Requisicao) (t : gmap Z Oportunidade)
  : Resposta -> gmap Z Oportunidade -> Prop :=
  | atendida_404 :
      t !! req_pk r = None -> atendida r t (Falha Http404) t
  | atendida_negada o :
      t !! req_pk r = Some o -> eh_vendedor (req_user r) = true ->
      vendedor o ≠ user_pk (req_user r) ->
      atendida r t (Falha PermissionDenied) t
  | atendida_invalida o msg :
      t !! req_pk r = Some o ->
      (eh_vendedor (req_user r) = true -> vendedor o = user_pk (req_user r)) ->
      etapa o = FECHAMENTO ∨ (etapa o = PERDIDA ∧ req_rota r = oportunidade_avancar) ->
      atendida r t (Falha (DoServico (ValidationError msg))) t
  | atendida_ok o prox :
      t !! req_pk r = Some o ->
      (eh_vendedor (req_user r) = true -> vendedor o = user_pk (req_user r)) ->
      etapa o ≠ FECHAMENTO ->
      match req_rota r with
      | oportunidade_avancar =>
          etapa o ≠ PERDIDA ∧ ORDEM_ETAPAS !! S (posicao (etapa o)) = Some prox
      | oportunidade_perdida => prox = PERDIDA
      end ->
      atendida r t (Redirect "sales:oportunidade_detail" (req_pk r))
        (<[req_pk r := com_atualizado_em (com_etapa o prox) (req_agora r)]> t).


(** ** The model on known results of the [decimal] module *)

Example div_1_3 :
  div (of_int 1) (of_int 3) = Some (mkDecimal 3333333333333333333333333333 (-28)).
Proof. reflexivity. Qed.

Example div_2_3 :
  div (of_int 2) (of_int 3) = Some (mkDecimal 6666666666666666666666666667 (-28)).
Proof. reflexivity. Qed.

Example div_600_1000 :
  div (mkDecimal 60000 (-2)) (mkDecimal 100000 (-2)) = Some (mkDecimal 6 (-1)).
Proof. reflexivity. Qed.

Example div_by_zero : div (of_int 1) (mkDecimal 0 (-2)) = None.
Proof. reflexivity. Qed.

Example mul_100_15 :
  mul (mkDecimal 10000 (-2)) (mkDecimal 15 (-1)) = mkDecimal 150000 (-3).
Proof. reflexivity. Qed.

Example round_tie_down : round (mkDecimal 25 (-2)) 1 = Some (mkDecimal 2 (-1)).
Proof. reflexivity. Qed.

Example round_tie_up : round (mkDecimal 35 (-2)) 1 = Some (mkDecimal 4 (-1)).
Proof. reflexivity. Qed.

Example status_sem_meta :
  calcular_status_meta (mkDecimal 0 (-2)) (mkDecimal (-500) (-2)) = "OK".
Proof. reflexivity. Qed.

Example status_100_149 : calcular_status_meta (of_int 100) (of_int 149) = "ATENCAO".
Proof. reflexivity. Qed.

Example status_100_150 : calcular_status_meta (of_int 100) (of_int 150) = "OK".
Proof. reflexivity. Qed.

Example status_100_9999 :
  calcular_status_meta (of_int 100) (mkDecimal 9999 (-2)) = "RISCO".
Proof. reflexivity. Qed.

Example status_100_100 : calcular_status_meta (of_int 100) (of_int 100) = "ATENCAO".
Proof. reflexivity. Qed.

(** ** Decimal: the value of the results *)

Lemma ten_nonzero : ~ (10 # 1 == 0)%Q.
Proof. discriminate. Qed.

Lemma Qpow10_pos e : (0 < (10 # 1) ^ e)%Q.
Proof. apply Qpower_0_lt. reflexivity. Qed.

Lemma inject_pow10 k : 0 <= k -> (inject_Z (10 ^ k) == (10 # 1) ^ k)%Q.
Proof. intros H. rewrite Zpower_Qpower by done. reflexivity. Qed.

(** Moving [k] digits between coefficient and exponent keeps the value. *)
Lemma dval_scale c e k :
  0 <= k ->
  (inject_Z (c * 10 ^ k) * (10 # 1) ^ (e - k) == inject_Z c * (10 # 1) ^ e)%Q.
Proof.
  intros H. rewrite inject_Z_mult, inject_pow10 by done.
  rewrite <- Qmult_assoc, <- Qpower_plus by apply ten_nonzero.
  replace (k + (e - k)) with e by lia. reflexivity.
Qed.

Lemma dval_aligned a m :
  m <= expo a ->
  (dval a == inject_Z (coef a * 10 ^ (expo a - m)) * (10 # 1) ^ m)%Q.
Proof.
  intros H. unfold dval.
  rewrite <- (dval_scale (coef a) (expo a) (expo a - m)) by lia.
  replace (expo a - (expo a - m)) with m by lia. reflexivity.
Qed.

(** The comparison of two Decimals is the comparison of their values. *)
Lemma compare_dval a b : compare a b = (dval a ?= dval b)%Q.
Proof.
  unfold compare. set (m := Z.min (expo a) (expo b)).
  assert (Ha : m <= expo a) by lia. assert (Hb : m <= expo b) by lia.
  pose proof (dval_aligned a m Ha) as Ea. pose proof (dval_aligned b m Hb) as Eb.
  pose proof (Qpow10_pos m) as Hp.
  symmetry.
  destruct (Z.compare_spec (coef a * 10 ^ (expo a - m))
                           (coef b * 10 ^ (expo b - m))) as [H|H|H].
  - apply Qeq_alt. rewrite Ea, Eb, H. reflexivity.
  - apply Qlt_alt. rewrite Ea, Eb. apply Qmult_lt_compat_r; [done|].
    by rewrite <- Zlt_Qlt.
  - apply Qgt_alt. rewrite Ea, Eb. apply Qmult_lt_compat_r; [done|].
    by rewrite <- Zlt_Qlt.
Qed.

Lemma dval_soma a b : (dval (soma a b) == dval a + dval b)%Q.
Proof.
  unfold soma. set (m := Z.min (expo a) (expo b)).
  rewrite (dval_aligned a m), (dval_aligned b m) by lia.
  unfold dval. simpl. rewrite inject_Z_plus. ring.
Qed.

Lemma dval_zero e : (dval (mkDecimal 0 e) == 0)%Q.
Proof. unfold dval. simpl. ring. Qed.

Lemma dval_foldl_soma l : ∀ x, (dval (foldl soma x l) == dval x + sumQ l)%Q.
Proof.
  induction l as [|y l IH]; intros x; simpl.
  - ring.
  - rewrite IH, dval_soma. ring.
Qed.

(** [Sum(...) or Decimal("0.00")] has the value of the sum, 0 for no row. *)
Lemma dval_total_or_Sum l :
  (dval (total_or (Sum l) (mkDecimal 0 (-2))) == sumQ l)%Q.
Proof.
  destruct l as [|x l]; simpl.
  - apply dval_zero.
  - unfold truthy. destruct (Z.eqb_spec (coef (foldl soma x l)) 0) as [E|E]; simpl.
    + rewrite dval_zero, <- dval_foldl_soma. unfold dval. rewrite E. ring.
    + apply dval_foldl_soma.
Qed.

Lemma sum_where_filter (P : Oportunidade -> Prop) `{!∀ o, Decision (P o)} l :
  (sum_where P l == sumQ (valor_estimado <$> filter P l))%Q.
Proof.
  induction l as [|o l IH]; simpl; [reflexivity|].
  rewrite filter_cons. destruct (decide (P o)); simpl; rewrite IH; reflexivity.
Qed.

(** ** Stage transitions: proofs *)

Arguments save : simpl never.

Lemma save_etapa_run agora w :
  save agora [campo_etapa; campo_atualizado_em] w =
  let o := com_atualizado_em (objeto w) agora in
  match tabela w !! pk (objeto w) with
  | None => (Levanta DatabaseError, mkMundo o (tabela w))
  | Some linha =>
      (Retorna tt,
       mkMundo o (<[pk (objeto w) :=
                     com_atualizado_em (com_etapa linha (etapa (objeto w))) agora]>
                    (tabela w)))
  end.
Proof.
  unfold save. case_decide as H.
  - simpl. reflexivity.
  - exfalso. apply H. set_solver.
Qed.

(** What a run of [avancar_etapa] amounts to, stage by stage. *)
Lemma avancar_etapa_run agora w :
  avancar_etapa agora w =
  match etapa (objeto w) with
  | PERDIDA =>
      (Levanta (ValidationError "Oportunidade perdida não pode avançar."), w)
  | FECHAMENTO =>
      (Levanta (ValidationError "Oportunidade já está na etapa final."), w)
  | e =>
      match index e ORDEM_ETAPAS with
      | None => (Levanta ValueError, w)
      | Some i =>
          match ORDEM_ETAPAS !! S i with
          | None => (Levanta IndexError, w)
          | Some prox =>
              let o := com_atualizado_em (com_etapa (objeto w) prox) agora in
              match tabela w !! pk (objeto w) with
              | None => (Levanta DatabaseError, mkMundo o (tabela w))
              | Some linha =>
                  (Retorna o,
                   mkMundo o (<[pk (objeto w) :=
                                 com_atualizado_em (com_etapa linha prox) agora]>
                                (tabela w)))
              end
          end
      end
  end.
Proof.
  destruct w as [[p ti cl ve va de e cr at'] t].
  destruct e; unfold avancar_etapa, bind, le_etapa; simpl; try reflexivity;
    rewrite save_etapa_run; simpl; destruct (t !! p); reflexivity.
Qed.

Lemma marcar_perdida_run agora w :
  marcar_perdida agora w =
  match etapa (objeto w) with
  | FECHAMENTO =>
      (Levanta (ValidationError
                  "Oportunidade fechada não pode ser marcada como perdida."), w)
  | _ =>
      let o := com_atualizado_em (com_etapa (objeto w) PERDIDA) agora in
      match tabela w !! pk (objeto w) with
      | None => (Levanta DatabaseError, mkMundo o (tabela w))
      | Some linha =>
          (Retorna o,
           mkMundo o (<[pk (objeto w) :=
                         com_atualizado_em (com_etapa linha PERDIDA) agora]>
                        (tabela w)))
      end
  end.
Proof.
  destruct w as [[p ti cl ve va de e cr at'] t].
  destruct e; unfold marcar_perdida, bind, le_etapa; simpl; try reflexivity;
    rewrite save_etapa_run; simpl; destruct (t !! p); reflexivity.
Qed.

(** The ordering has no repeated stage: a stage has one position. *)
Lemma ORDEM_ETAPAS_index i e :
  ORDEM_ETAPAS !! i = Some e -> index e ORDEM_ETAPAS = Some i.
Proof.
  do 5 (destruct i as [|i]; [intros [= <-]; reflexivity|]).
  destruct i; discriminate.
Qed.

(** C2: for an opportunity stored in the table whose stage [S] is at
    position [i] of the fixed ordering and is neither FECHAMENTO
    (closed-won) nor PERDIDA (lost), [avancar_etapa] returns, the
    ordering has an entry right after [S], the returned value is the
    caller's instance itself with its stage set to that entry, and the
    stored row carries that stage too. *)
Theorem avancar_etapa_next agora w i linha :
  ORDEM_ETAPAS !! i = Some (etapa (objeto w)) ->
  etapa (objeto w) ≠ FECHAMENTO ->
  etapa (objeto w) ≠ PERDIDA ->
  tabela w !! pk (objeto w) = Some linha ->
  ∃ prox,
    ORDEM_ETAPAS !! S i = Some prox ∧
    (avancar_etapa agora w).1 = Retorna (objeto (avancar_etapa agora w).2) ∧
    objeto (avancar_etapa agora w).2
      = com_atualizado_em (com_etapa (objeto w) prox) agora ∧
    etapa (objeto (avancar_etapa agora w).2) = prox ∧
    etapa <$> tabela (avancar_etapa agora w).2 !! pk (objeto w) = Some prox.
Proof.
  intros Hi Hf Hp Hl.
  pose proof (ORDEM_ETAPAS_index _ _ Hi) as Hidx.
  rewrite avancar_etapa_run.
  destruct (etapa (objeto w)) eqn:E; try congruence;
    rewrite Hidx; injection Hidx as <-; simpl; rewrite Hl; simpl;
    eexists; (split; [reflexivity|]);
    rewrite lookup_insert_eq; simpl; auto.
Qed.

Lemma avancar_etapa_next_witness :
  ∃ prox,
    ORDEM_ETAPAS !! 3%nat = Some prox ∧
    (avancar_etapa Cenario.julho (mkMundo Cenario.aberta Cenario.ops)).1
      = Retorna (objeto (avancar_etapa Cenario.julho
                           (mkMundo Cenario.aberta Cenario.ops)).2) ∧
    objeto (avancar_etapa Cenario.julho (mkMundo Cenario.aberta Cenario.ops)).2
      = com_atualizado_em (com_etapa Cenario.aberta prox) Cenario.julho ∧
    etapa (objeto (avancar_etapa Cenario.julho
                     (mkMundo Cenario.aberta Cenario.ops)).2) = prox ∧
    etapa <$> tabela (avancar_etapa Cenario.julho
                        (mkMundo Cenario.aberta Cenario.ops)).2 !! 2 = Some prox.
Proof.
  apply (avancar_etapa_next Cenario.julho (mkMundo Cenario.aberta Cenario.ops)
           2%nat Cenario.aberta).
  - reflexivity.
  - discriminate.
  - discriminate.
  - vm_compute. reflexivity.
Defined.

(** C3: [avancar_etapa] raises ValidationError exactly when the stage is
    PERDIDA or FECHAMENTO; when it does, neither the instance nor the
    table has changed; and for any other stage it returns, provided the
    opportunity is a row of the table. *)
Theorem avancar_etapa_invalid agora w :
  ((∃ msg, (avancar_etapa agora w).1 = Levanta (ValidationError msg)) ↔
   (etapa (objeto w) = PERDIDA ∨ etapa (objeto w) = FECHAMENTO)) ∧
  (∀ msg, (avancar_etapa agora w).1 = Levanta (ValidationError msg) ->
          (avancar_etapa agora w).2 = w) ∧
  (etapa (objeto w) ≠ PERDIDA -> etapa (objeto w) ≠ FECHAMENTO ->
   is_Some (tabela w !! pk (objeto w)) ->
   ∃ o, (avancar_etapa agora w).1 = Retorna o).
Proof.
  rewrite avancar_etapa_run.
  destruct (etapa (objeto w)) eqn:E; simpl;
    destruct (tabela w !! pk (objeto w)) eqn:L; simpl;
    (split; [split; [intros [msg H]; discriminate || auto
                    | intros [H|H]; discriminate || eauto]
            | split; [intros msg H; discriminate || reflexivity
                     | intros H1 H2 [x Hx]; congruence || eauto]]).
Qed.

Lemma avancar_etapa_invalid_witness :
  (avancar_etapa Cenario.julho (mkMundo Cenario.fechada Cenario.ops)).2
    = mkMundo Cenario.fechada Cenario.ops ∧
  ∃ o, (avancar_etapa Cenario.julho (mkMundo Cenario.aberta Cenario.ops)).1
       = Retorna o.
Proof.
  split.
  - apply (proj1 (proj2 (avancar_etapa_invalid Cenario.julho
                           (mkMundo Cenario.fechada Cenario.ops)))
             "Oportunidade já está na etapa final.").
    reflexivity.
  - apply (avancar_etapa_invalid Cenario.julho (mkMundo Cenario.aberta Cenario.ops)).
    + discriminate.
    + discriminate.
    + exists Cenario.aberta. vm_compute. reflexivity.
Defined.

(** C4: [marcar_perdida] raises ValidationError exactly when the stage
    is FECHAMENTO; for every other stage, PERDIDA included, and an
    opportunity that is a row of the table, it returns the instance, and
    both the instance and the stored row are at PERDIDA. *)
Theorem marcar_perdida_rule agora w :
  ((∃ msg, (marcar_perdida agora w).1 = Levanta (ValidationError msg)) ↔
   etapa (objeto w) = FECHAMENTO) ∧
  (etapa (objeto w) ≠ FECHAMENTO ->
   is_Some (tabela w !! pk (objeto w)) ->
   (marcar_perdida agora w).1 = Retorna (objeto (marcar_perdida agora w).2) ∧
   etapa (objeto (marcar_perdida agora w).2) = PERDIDA ∧
   etapa <$> tabela (marcar_perdida agora w).2 !! pk (objeto w) = Some PERDIDA).
Proof.
  rewrite marcar_perdida_run.
  destruct (etapa (objeto w)) eqn:E; simpl;
    destruct (tabela w !! pk (objeto w)) eqn:L; simpl;
    (split; [split; [intros [msg H]; discriminate || auto
                    | intros H; discriminate || eauto]
            | intros H1 [x Hx]; try congruence;
              rewrite lookup_insert_eq; simpl; auto]).
Qed.

Lemma marcar_perdida_rule_witness :
  (marcar_perdida Cenario.julho (mkMundo Cenario.perdida Cenario.ops)).1
    = Retorna (objeto (marcar_perdida Cenario.julho
                         (mkMundo Cenario.perdida Cenario.ops)).2) ∧
  etapa (objeto (marcar_perdida Cenario.julho
                   (mkMundo Cenario.perdida Cenario.ops)).2) = PERDIDA ∧
  etapa <$> tabela (marcar_perdida Cenario.julho
                      (mkMundo Cenario.perdida Cenario.ops)).2 !! 3
    = Some PERDIDA.
Proof.
  apply (marcar_perdida_rule Cenario.julho (mkMundo Cenario.perdida Cenario.ops)).
  - discriminate.
  - exists Cenario.perdida. vm_compute. reflexivity.
Defined.

(** C10: when [avancar_etapa] or [marcar_perdida] returns, the only
    columns written are the stage and the update time of the
    opportunity's row: title, client, seller, estimated value,
    description and creation time of that row are what they were, and
    every other row is untouched. *)
Theorem transicao_partial_update agora w o :
  ((avancar_etapa agora w).1 = Retorna o ->
   so_etapa_e_atualizado agora w (avancar_etapa agora w).2) ∧
  ((marcar_perdida agora w).1 = Retorna o ->
   so_etapa_e_atualizado agora w (marcar_perdida agora w).2).
Proof.
  rewrite avancar_etapa_run, marcar_perdida_run.
  split; intros H;
    destruct (etapa (objeto w)) eqn:E; simpl in *; try discriminate;
    destruct (tabela w !! pk (objeto w)) as [linha|] eqn:L; simpl in *;
    try discriminate;
    exists linha; eexists; simpl;
    (split; [exact L|]);
    (split; [apply lookup_insert_eq|]);
    (repeat split; try reflexivity);
    intros k Hk; apply lookup_insert_ne; congruence.
Qed.

Lemma transicao_partial_update_witness :
  so_etapa_e_atualizado Cenario.julho (mkMundo Cenario.aberta Cenario.ops)
    (avancar_etapa Cenario.julho (mkMundo Cenario.aberta Cenario.ops)).2 ∧
  so_etapa_e_atualizado Cenario.julho (mkMundo Cenario.aberta Cenario.ops)
    (marcar_perdida Cenario.julho (mkMundo Cenario.aberta Cenario.ops)).2.
Proof.
  split.
  - apply (proj1 (transicao_partial_update Cenario.julho
                    (mkMundo Cenario.aberta Cenario.ops)
                    (com_atualizado_em (com_etapa Cenario.aberta NEGOCIACAO)
                                       Cenario.julho))).
    reflexivity.
  - apply (proj2 (transicao_partial_update Cenario.julho
                    (mkMundo Cenario.aberta Cenario.ops)
                    (com_atualizado_em (com_etapa Cenario.aberta PERDIDA)
                                       Cenario.julho))).
    reflexivity.
Defined.

(** ** Commercial targets: period and lookup *)

Lemma elem_of_rows {A} (t : gmap Z A) (x : A) :
  x ∈ rows t ↔ ∃ k, t !! k = Some x.
Proof.
  unfold rows. rewrite list_elem_of_fmap. split.
  - intros [[k y] [-> H]]. exists k. by apply elem_of_map_to_list.
  - intros [k H]. exists (k, x). split; [done|]. by apply elem_of_map_to_list.
Qed.

Lemma filter_nil_not_elem {A} (P : A -> Prop) `{!∀ x, Decision (P x)} (l : list A) :
  (∀ x, x ∈ l -> ¬ P x) -> filter P l = [].
Proof.
  intros Hno. induction l as [|y l IH]; [done|].
  rewrite filter_cons. destruct (decide (P y)) as [Hy|Hy].
  - exfalso. apply (Hno y); [left | done].
  - apply IH. intros x Hx. apply Hno. by right.
Qed.

Lemma rows_filter_two {A} (P : A -> Prop) `{!∀ x, Decision (P x)} (t : gmap Z A) :
  (2 <= length (filter P (rows t)))%nat ↔
  ∃ k1 k2 x1 x2, k1 ≠ k2 ∧ t !! k1 = Some x1 ∧ t !! k2 = Some x2 ∧ P x1 ∧ P x2.
Proof.
  unfold rows.
  assert (Hf : ∀ l : list (Z * A),
            filter P (l.*2) = (filter (λ kv, P kv.2) l).*2).
  { induction l as [|[k x] l IH]; [done|]. rewrite fmap_cons, !filter_cons. simpl.
    destruct (decide (P x)); by rewrite ?fmap_cons, IH. }
  rewrite Hf, length_fmap.
  set (L := filter (λ kv : Z * A, P kv.2) (map_to_list t)).
  assert (Hnd : NoDup L) by apply NoDup_filter, NoDup_map_to_list.
  assert (Hin : ∀ k x, (k, x) ∈ L ↔ t !! k = Some x ∧ P x).
  { intros k x. unfold L. rewrite list_elem_of_filter, elem_of_map_to_list. simpl. tauto. }
  split.
  - intros Hlen. destruct L as [|[k1 x1] [|[k2 x2] L']] eqn:EL; simpl in Hlen; try lia.
    assert (H1 : (k1, x1) ∈ L) by (rewrite EL; left).
    assert (H2 : (k2, x2) ∈ L) by (rewrite EL; right; left).
    rewrite EL in *.
    apply Hin in H1 as [H1 P1]. apply Hin in H2 as [H2 P2].
    exists k1, k2, x1, x2. split; [|done].
    intros ->. rewrite H1 in H2. injection H2 as ->.
    apply NoDup_cons in Hnd as [Hnd _]. apply Hnd. left.
  - intros (k1 & k2 & x1 & x2 & Hne & H1 & H2 & P1 & P2).
    assert (E1 : (k1, x1) ∈ L) by (by apply Hin).
    assert (E2 : (k2, x2) ∈ L) by (by apply Hin).
    destruct L as [|a [|b L']]; simpl; try lia.
    + by apply elem_of_nil in E1.
    + apply list_elem_of_singleton in E1, E2. congruence.
Qed.

(** With both components given the clock is not consulted. *)
Lemma obter_meta_vendedor_clock hoje hoje' bd vend m a :
  obter_meta_vendedor hoje bd vend (Some m) (Some a)
  = obter_meta_vendedor hoje' bd vend (Some m) (Some a).
Proof. reflexivity. Qed.

Lemma obter_meta_vendedor_periodo hoje bd vend m a d :
  obter_meta_vendedor hoje bd vend m a = Retorna d ->
  (dados_mes d, dados_ano d) = resolve_mes_ano hoje m a.
Proof.
  unfold obter_meta_vendedor.
  destruct (resolve_mes_ano hoje m a) as [m' a'].
  destruct (objects_get _ _ _ _); [|discriminate].
  destruct (percentual_de _ _); [|discriminate].
  by intros [= <-].
Qed.

(** C7: when no commercial target of the seller exists for the resolved
    month and year, [obter_meta_vendedor] returns (it does not raise),
    with no target record, target value 0.00, percentage 0.0 and status
    OK, whatever the realized and pipeline amounts are. *)
Theorem obter_meta_vendedor_sem_meta hoje bd vend m a :
  (∀ k x, metas bd !! k = Some x ->
     ¬ (meta_vendedor x = vend ∧
        mes x = (resolve_mes_ano hoje m a).1 ∧
        ano x = (resolve_mes_ano hoje m a).2)) ->
  obter_meta_vendedor hoje bd vend m a =
  Retorna (mkDadosMeta None (mkDecimal 0 (-2))
             (calcular_realizado (oportunidades bd) vend
                (resolve_mes_ano hoje m a).1 (resolve_mes_ano hoje m a).2)
             (calcular_pipeline (oportunidades bd) vend
                (resolve_mes_ano hoje m a).1 (resolve_mes_ano hoje m a).2)
             (mkDecimal 0 (-1)) "OK"
             (resolve_mes_ano hoje m a).1 (resolve_mes_ano hoje m a).2).
Proof.
  intros H. unfold obter_meta_vendedor.
  destruct (resolve_mes_ano hoje m a) as [m' a']. simpl in *.
  unfold objects_get. rewrite filter_nil_not_elem.
  - reflexivity.
  - intros x [k Hk]%elem_of_rows. by apply (H k).
Qed.

Lemma obter_meta_vendedor_sem_meta_witness :
  obter_meta_vendedor Cenario.julho Cenario.banco 8 (Some 6) (Some 2024) =
  Retorna (mkDadosMeta None (mkDecimal 0 (-2)) (mkDecimal 0 (-2))
             (mkDecimal 30000 (-2)) (mkDecimal 0 (-1)) "OK" 6 2024).
Proof.
  apply (obter_meta_vendedor_sem_meta Cenario.julho Cenario.banco 8
           (Some 6) (Some 2024)).
  intros k x Hk [Hv _]. unfold Cenario.banco in Hk. simpl in Hk.
  apply lookup_insert_Some in Hk as [[_ <-]|[_ Hk]].
  - discriminate Hv.
  - by rewrite lookup_empty in Hk.
Defined.

(** Both functions work with the period [resolve_mes_ano] gives and
    report it; with both components supplied they are used as given; a
    component that is omitted is the current date's; a supplied component
    other than 0 is kept when the other one is omitted. *)
Lemma resolve_mes_ano_rule hoje relogio bd vend m a :
  (∀ d, obter_meta_vendedor hoje bd vend m a = Retorna d ->
        (dados_mes d, dados_ano d) = resolve_mes_ano hoje m a) ∧
  (∀ r m' a', listar_metas_vendedores hoje relogio bd m a = Retorna (r, m', a') ->
              (m', a') = resolve_mes_ano hoje m a) ∧
  (∀ x y, resolve_mes_ano hoje (Some x) (Some y) = (x, y)) ∧
  (∀ x, x ≠ 0 -> resolve_mes_ano hoje (Some x) None = (x, year hoje)) ∧
  (∀ y, y ≠ 0 -> resolve_mes_ano hoje None (Some y) = (month hoje, y)) ∧
  resolve_mes_ano hoje None None = (month hoje, year hoje).
Proof.
  split; [intros d; apply obter_meta_vendedor_periodo|].
  split.
  { intros r m' a'. unfold listar_metas_vendedores.
    destruct (resolve_mes_ano hoje m a) as [m0 a0].
    destruct (laco_metas _ _ _ _ _ _ _); [|discriminate].
    by intros [= _ <- <-]. }
  split; [reflexivity|].
  split.
  { intros x Hx. unfold resolve_mes_ano, int_or.
    destruct (Z.eqb_spec x 0); [contradiction | reflexivity]. }
  split.
  { intros y Hy. unfold resolve_mes_ano, int_or.
    destruct (Z.eqb_spec y 0); [contradiction | reflexivity]. }
  reflexivity.
Qed.

(** C8 does not hold of the code.  A month supplied as 0 with the year
    omitted is not kept: [mes or hoje.month] replaces it by the current
    month, and likewise a year supplied as 0 with the month omitted;
    with both components supplied the same 0 is used as given.  On
    2 July 2024 the call with month 0 and no year returns and reports
    month 7. *)
Theorem resolve_mes_ano_zero_not_kept hoje x y :
  resolve_mes_ano hoje (Some 0) None = (month hoje, year hoje) ∧
  resolve_mes_ano hoje None (Some 0) = (month hoje, year hoje) ∧
  resolve_mes_ano hoje (Some 0) (Some y) = (0, y) ∧
  resolve_mes_ano hoje (Some x) (Some 0) = (x, 0) ∧
  ∃ d, obter_meta_vendedor Cenario.julho Cenario.banco 7 (Some 0) None = Retorna d ∧
       dados_mes d = 7 ∧ dados_ano d = 2024 ∧
       ¬ (dados_mes d = 0 ∧ dados_ano d = year Cenario.julho).
Proof.
  repeat (split; [reflexivity|]).
  eexists. split; [vm_compute; reflexivity|].
  split; [reflexivity|]. split; [reflexivity|]. intros [H _]. discriminate H.
Qed.

(** ** Commercial targets: the manager's list *)

(** The loop returns exactly when every call returns, and then appends
    the results of the calls in order. *)
Lemma laco_metas_ok relogio bd m a ms : ∀ i acc res,
  laco_metas relogio bd m a i ms acc = Retorna res ↔
  ∃ ds, res = acc ++ ds ∧
        Forall2 (λ meta d, ∀ hoje,
                   obter_meta_vendedor hoje bd (meta_vendedor meta) (Some m) (Some a)
                   = Retorna d) ms ds.
Proof.
  induction ms as [|meta ms IH]; intros i acc res; simpl.
  - split.
    + intros [= <-]. exists []. split; [by rewrite app_nil_r | constructor].
    + intros (ds & -> & Hds). inversion Hds. by rewrite app_nil_r.
  - destruct (obter_meta_vendedor (relogio i) bd (meta_vendedor meta) (Some m) (Some a))
      as [d|e] eqn:E.
    + rewrite IH. split.
      * intros (ds & -> & Hds). exists (d :: ds). split.
        { by rewrite <- app_assoc. }
        constructor; [|done]. intros hoje.
        by rewrite (obter_meta_vendedor_clock hoje (relogio i)).
      * intros (ds & -> & Hds). inversion Hds as [|? d' ? ds' Hd Hds']; subst.
        exists ds'. split; [|done].
        rewrite (Hd (relogio i)) in E. injection E as <-.
        by rewrite <- app_assoc.
    + split; [discriminate|].
      intros (ds & -> & Hds). inversion Hds as [|? d' ? ds' Hd Hds']; subst.
      rewrite (Hd (relogio i)) in E. discriminate.
Qed.

(** C9: [listar_metas_vendedores] returns exactly when
    [obter_meta_vendedor] returns for the seller of every commercial
    target of the resolved period; the list it then returns has one entry
    per target of that period, in retrieval order, each entry being what
    a call of [obter_meta_vendedor] for that target's seller and the same
    month and year returns, at whatever time the call is made; the month
    and year returned with the list are the resolved ones. *)
Theorem listar_metas_vendedores_entries hoje relogio bd m a res m' a' :
  listar_metas_vendedores hoje relogio bd m a = Retorna (res, m', a') ↔
  (m', a') = resolve_mes_ano hoje m a ∧
  Forall2 (λ meta d, ∀ hoje',
             obter_meta_vendedor hoje' bd (meta_vendedor meta) (Some m') (Some a')
             = Retorna d)
          (filter (λ x, mes x = m' ∧ ano x = a') (rows (metas bd))) res.
Proof.
  unfold listar_metas_vendedores.
  destruct (resolve_mes_ano hoje m a) as [m0 a0].
  destruct (laco_metas relogio bd m0 a0 0 _ []) as [r|e] eqn:E.
  - apply laco_metas_ok in E as (ds & -> & Hds). simpl. split.
    + intros [= <- <- <-]. done.
    + intros [[= -> ->] H]. do 3 f_equal.
      revert H Hds. generalize (filter (λ x, mes x = m0 ∧ ano x = a0) (rows (metas bd))).
      intros l H. revert ds. induction H as [|meta d l res Hd _ IH]; intros ds Hds.
      * by inversion Hds.
      * inversion Hds as [|? d' ? ds' Hd' Hds']; subst.
        f_equal; [|by apply IH].
        specialize (Hd hoje). rewrite (Hd' hoje) in Hd. by injection Hd.
  - split; [discriminate|]. intros [[= -> ->] H]. exfalso.
    assert (laco_metas relogio bd m0 a0 0
              (filter (λ x, mes x = m0 ∧ ano x = a0) (rows (metas bd))) []
            = Retorna res) as E'.
    { apply laco_metas_ok. by exists res. }
    congruence.
Qed.

Lemma listar_metas_vendedores_entries_witness :
  ∃ d, listar_metas_vendedores Cenario.julho (λ _, Cenario.julho) Cenario.banco
         (Some 6) None = Retorna ([d], 6, 2024) ∧
       dados_percentual d = mkDecimal 600 (-1) ∧ dados_status d = "ATENCAO".
Proof.
  eexists. split.
  - apply (listar_metas_vendedores_entries Cenario.julho (λ _, Cenario.julho)
             Cenario.banco (Some 6) None). split; [reflexivity|].
    change (filter _ _) with [Cenario.meta7].
    constructor; [|constructor]. intros hoje'.
    rewrite (obter_meta_vendedor_clock hoje' Cenario.julho).
    vm_compute. reflexivity.
  - split; reflexivity.
Defined.

(** ** Commercial targets: realized and pipeline amounts *)

Lemma chaves_de_map_to_list {A} (t : gmap Z A) ks :
  chaves_de t ks -> ks ≡ₚ (map_to_list t).*1.
Proof.
  intros [Hnd Hks]. apply NoDup_Permutation; [done|apply NoDup_fst_map_to_list|].
  intros k. rewrite Hks, list_elem_of_fmap. split.
  - intros [x Hx]. exists (k, x). split; [done|]. by apply elem_of_map_to_list.
  - intros [[k' x] [-> Hx]]. exists x. by apply elem_of_map_to_list.
Qed.

Lemma soma_chaves_perm (P : Oportunidade -> Prop) `{!∀ o, Decision (P o)}
    (t : gmap Z Oportunidade) ks ks' :
  ks ≡ₚ ks' -> (soma_chaves P t ks == soma_chaves P t ks')%Q.
Proof.
  intros Hp. induction Hp as [|k l l' _ IH|k1 k2 l|l1 l2 l3 _ IH1 _ IH2]; simpl.
  - reflexivity.
  - destruct (t !! k) as [o|]; [|exact IH].
    destruct (decide (P o)); [|exact IH]. rewrite IH. reflexivity.
  - destruct (t !! k1) as [o1|], (t !! k2) as [o2|]; try reflexivity;
      repeat case_decide; try reflexivity. ring.
  - by rewrite IH1.
Qed.

Lemma soma_chaves_pares (P : Oportunidade -> Prop) `{!∀ o, Decision (P o)}
    (t : gmap Z Oportunidade) (l : list (Z * Oportunidade)) :
  (∀ k o, (k, o) ∈ l -> t !! k = Some o) ->
  (soma_chaves P t l.*1 == sum_where P l.*2)%Q.
Proof.
  induction l as [|[k o] l IH]; intros Hl; simpl; [reflexivity|].
  rewrite (Hl k o) by left.
  assert (IH' : (soma_chaves P t l.*1 == sum_where P l.*2)%Q).
  { apply IH. intros k' o' Hin. apply Hl. by right. }
  unfold soma_chaves in IH'. destruct (decide (P o)); rewrite IH'; reflexivity.
Qed.

(** The sum over the listing of the rows is the sum over the keys. *)
Lemma sum_where_chaves (P : Oportunidade -> Prop) `{!∀ o, Decision (P o)}
    (t : gmap Z Oportunidade) ks :
  chaves_de t ks -> (sum_where P (rows t) == soma_chaves P t ks)%Q.
Proof.
  intros Hks. rewrite (soma_chaves_perm P t _ _ (chaves_de_map_to_list t ks Hks)).
  unfold rows. symmetry. apply soma_chaves_pares.
  intros k o Hin. by apply elem_of_map_to_list.
Qed.

Lemma calcular_realizado_dval ops vend m a :
  (dval (calcular_realizado ops vend m a)
   == sum_where (fechada_no_mes vend m a) (rows ops))%Q.
Proof.
  unfold calcular_realizado. rewrite dval_total_or_Sum, sum_where_filter. reflexivity.
Qed.

Lemma Cenario_ops_chaves : chaves_de Cenario.ops [1; 2; 3; 4].
Proof.
  split.
  - repeat (apply NoDup_cons; split; [rewrite ?elem_of_cons, elem_of_nil; lia|]).
    apply NoDup_nil_2.
  - intros k. rewrite !elem_of_cons, elem_of_nil. unfold Cenario.ops. split.
    + intros [->|[->|[->|[->|[]]]]]; vm_compute; eauto.
    + intros [o Hk].
      repeat (apply lookup_insert_Some in Hk as [[<- _]|[_ Hk]]; [tauto|]).
      by rewrite lookup_empty in Hk.
Qed.

(** C5: [calcular_realizado] has the value of the sum of the estimated
    values of exactly the seller's opportunities at FECHAMENTO whose
    update time is in the month and year, each row of the table counted
    once; [calcular_pipeline] that of the seller's opportunities created
    in the month and year whose stage is neither FECHAMENTO nor PERDIDA;
    when no opportunity qualifies, each returns the Decimal 0.00 itself,
    not None. *)
Theorem calcular_realizado_pipeline_sum ops ks vend m a :
  chaves_de ops ks ->
  (dval (calcular_realizado ops vend m a)
   == soma_chaves (fechada_no_mes vend m a) ops ks)%Q ∧
  (dval (calcular_pipeline ops vend m a)
   == soma_chaves (aberta_do_mes vend m a) ops ks)%Q ∧
  ((∀ k o, ops !! k = Some o -> ¬ fechada_no_mes vend m a o) ->
   calcular_realizado ops vend m a = mkDecimal 0 (-2)) ∧
  ((∀ k o, ops !! k = Some o -> ¬ aberta_do_mes vend m a o) ->
   calcular_pipeline ops vend m a = mkDecimal 0 (-2)).
Proof.
  intros Hks.
  assert (Hpipe :
    filter (λ o, etapa o ∉ [FECHAMENTO; PERDIDA])
      (filter (λ o, vendedor o = vend ∧ month (criado_em o) = m ∧
                    year (criado_em o) = a) (rows ops))
    = filter (aberta_do_mes vend m a) (rows ops)).
  { rewrite list_filter_filter. apply list_filter_iff. intros o.
    unfold aberta_do_mes. rewrite !not_elem_of_cons. split.
    - intros [(Hf & Hp & _) (Hv & Hm & Ha)]. done.
    - intros (Hv & Hm & Ha & Hf & Hp). repeat split; try done.
      apply not_elem_of_nil. }
  unfold calcular_realizado, calcular_pipeline. rewrite Hpipe.
  split; [|split; [|split]].
  - rewrite dval_total_or_Sum, <- sum_where_filter. by apply sum_where_chaves.
  - rewrite dval_total_or_Sum, <- sum_where_filter. by apply sum_where_chaves.
  - intros Hno.
    rewrite (filter_nil_not_elem (fechada_no_mes vend m a)); [reflexivity|].
    intros o [k Hk]%elem_of_rows. by apply (Hno k).
  - intros Hno.
    rewrite (filter_nil_not_elem (aberta_do_mes vend m a)); [reflexivity|].
    intros o [k Hk]%elem_of_rows. by apply (Hno k).
Qed.

Lemma calcular_realizado_pipeline_sum_witness :
  (dval (calcular_realizado Cenario.ops 7 6 2024) == 600)%Q ∧
  (dval (calcular_pipeline Cenario.ops 7 6 2024) == 1200)%Q ∧
  calcular_realizado Cenario.ops 9 6 2024 = mkDecimal 0 (-2) ∧
  calcular_pipeline Cenario.ops 9 6 2024 = mkDecimal 0 (-2).
Proof.
  assert (Hrows : ∀ k o, Cenario.ops !! k = Some o -> vendedor o ≠ 9).
  { intros k o Hk. unfold Cenario.ops in Hk.
    repeat (apply lookup_insert_Some in Hk as [[_ <-]|[_ Hk]]; [discriminate|]).
    by rewrite lookup_empty in Hk. }
  destruct (calcular_realizado_pipeline_sum Cenario.ops [1; 2; 3; 4] 7 6 2024
              Cenario_ops_chaves) as (Hr7 & Hp7 & _ & _).
  destruct (calcular_realizado_pipeline_sum Cenario.ops [1; 2; 3; 4] 9 6 2024
              Cenario_ops_chaves) as (_ & _ & Hr & Hp).
  split; [rewrite Hr7; reflexivity|]. split; [rewrite Hp7; reflexivity|].
  split.
  - apply Hr. intros k o Hk [Hv _]. by apply (Hrows k o).
  - apply Hp. intros k o Hk [Hv _]. by apply (Hrows k o).
Defined.

(** ** Decimal: digits, precision and order *)

Lemma ndigits_fuel_spec f : forall n,
  0 < n -> n < 2 ^ (Z.of_nat f + 1) ->
  10 ^ (ndigits_fuel f n - 1) <= n < 10 ^ ndigits_fuel f n /\ 1 <= ndigits_fuel f n.
Proof.
  induction f as [|f IH]; intros n Hpos Hlt.
  - simpl in *. assert (n = 1) as -> by lia. simpl. lia.
  - cbn [ndigits_fuel]. destruct (Z.ltb_spec n 10) as [H10|H10].
    + simpl. lia.
    + assert (Hq : 0 < n / 10) by (apply Z.div_str_pos; lia).
      assert (Hq2 : n / 10 < 2 ^ (Z.of_nat f + 1)).
      { apply Z.div_lt_upper_bound; [lia|].
        assert (n < 2 * 2 ^ (Z.of_nat f + 1)); [|lia].
        rewrite <- Z.pow_succ_r by lia.
        replace (Z.succ (Z.of_nat f + 1)) with (Z.of_nat (S f) + 1) by lia.
        exact Hlt. }
      destruct (IH _ Hq Hq2) as [[Hlo Hhi] H1].
      set (d := ndigits_fuel f (n / 10)) in *.
      replace (1 + d - 1) with (Z.succ (d - 1)) by lia.
      replace (1 + d) with (Z.succ d) by lia.
      rewrite !Z.pow_succ_r by lia.
      pose proof (Z.div_mod n 10 ltac:(lia)) as Hdm.
      pose proof (Z.mod_pos_bound n 10 ltac:(lia)) as Hm.
      lia.
Qed.

Lemma ndigits_spec n :
  0 < n -> 10 ^ (ndigits n - 1) <= n < 10 ^ ndigits n /\ 1 <= ndigits n.
Proof.
  intros Hpos. unfold ndigits. apply ndigits_fuel_spec; [done|].
  rewrite Z2Nat.id by apply Z.log2_nonneg.
  pose proof (Z.log2_spec n Hpos). replace (Z.log2 n + 1) with (Z.succ (Z.log2 n)) by lia. lia.
Qed.

Lemma ndigits_le n k : 0 <= n < 10 ^ k -> 1 <= k -> ndigits n <= k.
Proof.
  intros [H0 Hk] H1. destruct (Z.eq_dec n 0) as [->|Hn]; [by vm_compute|].
  destruct (ndigits_spec n ltac:(lia)) as [[Hlo _] Hd].
  destruct (Z.le_gt_cases (ndigits n) k) as [|Hgt]; [done|].
  assert (10 ^ k <= 10 ^ (ndigits n - 1)) by (apply Z.pow_le_mono_r; lia). lia.
Qed.

Lemma fix_small d : Z.abs (coef d) < 10 ^ prec -> fix_ d = d.
Proof.
  intros H. unfold fix_.
  destruct (Z.leb_spec (ndigits (Z.abs (coef d))) prec) as [|Hgt]; [done|].
  pose proof (ndigits_le (Z.abs (coef d)) prec). unfold prec in *. lia.
Qed.

Lemma leb_dval a b : leb a b = true <-> (dval a <= dval b)%Q.
Proof.
  unfold leb. rewrite compare_dval, Qle_alt.
  destruct (dval a ?= dval b)%Q; split; congruence.
Qed.

Lemma leb_dval_false a b : leb a b = false <-> (dval b < dval a)%Q.
Proof.
  unfold leb. rewrite compare_dval, Qgt_alt.
  destruct (dval a ?= dval b)%Q; split; congruence.
Qed.

Lemma dval_of_int_0 : (dval (of_int 0) == 0)%Q.
Proof. apply dval_zero. Qed.

Lemma dval_mul_15 a :
  Z.abs (coef a) * 15 < 10 ^ prec ->
  (dval (mul a (mkDecimal 15 (-1))) == (15 # 10) * dval a)%Q.
Proof.
  intros H. unfold mul. rewrite fix_small by (simpl; lia).
  unfold dval. simpl coef. simpl expo.
  rewrite inject_Z_mult, Qpower_plus by apply ten_nonzero.
  change ((10 # 1) ^ (-1))%Q with (1 # 10)%Q.
  change (inject_Z 15) with (15 # 1)%Q.
  field.
Qed.

(** ** Commercial targets: the status bands *)

(** C1: for a target value whose product by 1.5 fits the 28 digits of the
    decimal context (any value of a decimal column does), the status is
    OK exactly when the target is at most 0 or the pipeline is at least
    1.5 times the target; ATENCAO exactly when the target is positive and
    the pipeline is at least the target and below 1.5 times it; RISCO
    exactly when the target is positive and the pipeline is below it.  No
    other status is returned, and a pipeline equal to the target gives
    ATENCAO, one equal to 1.5 times the target gives OK. *)
Theorem calcular_status_meta_bands valor_meta pipeline :
  Z.abs (coef valor_meta) * 15 < 10 ^ prec ->
  (calcular_status_meta valor_meta pipeline = "OK" ↔
   (dval valor_meta <= 0 ∨ (15 # 10) * dval valor_meta <= dval pipeline)%Q) ∧
  (calcular_status_meta valor_meta pipeline = "ATENCAO" ↔
   (0 < dval valor_meta ∧ dval valor_meta <= dval pipeline ∧
    dval pipeline < (15 # 10) * dval valor_meta)%Q) ∧
  (calcular_status_meta valor_meta pipeline = "RISCO" ↔
   (0 < dval valor_meta ∧ dval pipeline < dval valor_meta)%Q) ∧
  (calcular_status_meta valor_meta pipeline = "OK" ∨
   calcular_status_meta valor_meta pipeline = "ATENCAO" ∨
   calcular_status_meta valor_meta pipeline = "RISCO") ∧
  ((0 < dval valor_meta)%Q -> (dval pipeline == dval valor_meta)%Q ->
   calcular_status_meta valor_meta pipeline = "ATENCAO") ∧
  ((dval pipeline == (15 # 10) * dval valor_meta)%Q ->
   calcular_status_meta valor_meta pipeline = "OK").
Proof.
  intros Hprec. unfold calcular_status_meta, geb.
  pose proof (dval_mul_15 valor_meta Hprec) as Hmul.
  pose proof dval_of_int_0 as H0.
  destruct (leb valor_meta (of_int 0)) eqn:E1.
  { apply leb_dval in E1. rewrite H0 in E1.
    repeat split; try discriminate; auto; intros; lra. }
  apply leb_dval_false in E1. rewrite H0 in E1.
  destruct (leb (mul valor_meta (mkDecimal 15 (-1))) pipeline) eqn:E2.
  { apply leb_dval in E2. rewrite Hmul in E2.
    repeat split; try discriminate; auto; intros; lra. }
  apply leb_dval_false in E2. rewrite Hmul in E2.
  destruct (leb valor_meta pipeline) eqn:E3.
  { apply leb_dval in E3.
    repeat split; try discriminate; auto; intros; lra. }
  apply leb_dval_false in E3.
  repeat split; try discriminate; auto; intros; lra.
Qed.

Lemma calcular_status_meta_bands_witness :
  calcular_status_meta (mkDecimal 10000 (-2)) (mkDecimal 10000 (-2)) = "ATENCAO" ∧
  calcular_status_meta (mkDecimal 10000 (-2)) (mkDecimal 150 0) = "OK".
Proof.
  destruct (calcular_status_meta_bands (mkDecimal 10000 (-2)) (mkDecimal 10000 (-2)))
    as (_ & _ & _ & _ & Htie & _); [vm_compute; reflexivity|].
  destruct (calcular_status_meta_bands (mkDecimal 10000 (-2)) (mkDecimal 150 0))
    as (_ & _ & _ & _ & _ & Htop); [vm_compute; reflexivity|].
  split.
  - apply Htie; vm_compute; reflexivity.
  - apply Htop. vm_compute. reflexivity.
Defined.

(** ** Decimal: rounding half-even *)

Lemma rhe_div_nearest a m : 0 < m -> nearest_even a m (rhe_div a m).
Proof.
  intros Hm. unfold nearest_even, rhe_div.
  pose proof (Z.div_mod a m ltac:(lia)) as Hdm.
  pose proof (Z.mod_pos_bound a m Hm) as Hr.
  set (q := a / m) in *. set (r := a mod m) in *.
  destruct (Z.compare_spec (2 * r) m) as [H|H|H].
  - destruct (Z.even q) eqn:E.
    + split; [nia|]. auto.
    + split; [nia|]. intros _. rewrite Z.even_add, E. reflexivity.
  - split; [nia|]. intros [H'|H']; exfalso; nia.
  - split; [nia|]. intros [H'|H']; exfalso; nia.
Qed.

Lemma nearest_even_unique a m r r' :
  0 < m -> nearest_even a m r -> nearest_even a m r' -> r = r'.
Proof.
  intros Hm [[H1 H2] H3] [[H1' H2'] H3'].
  assert (r' - 1 <= r <= r' + 1) as Hclose by nia.
  assert (r = r' \/ r = r' + 1 \/ r = r' - 1) as [E|[E|E]] by lia; [done| |].
  - exfalso. subst r.
    assert (2 * a = 2 * r' * m + m) as Ha by nia.
    assert (Z.even r' = true) as E1 by (apply H3'; auto).
    assert (Z.even (r' + 1) = true) as E2 by (apply H3; left; nia).
    rewrite Z.even_add, E1 in E2. discriminate.
  - exfalso. subst r.
    assert (2 * a = 2 * r' * m - m) as Ha by nia.
    assert (Z.even r' = true) as E1 by (apply H3'; auto).
    assert (Z.even (r' - 1) = true) as E2 by (apply H3; right; nia).
    rewrite Z.even_sub, E1 in E2. discriminate.
Qed.

Lemma rhe_div_unique a m r : 0 < m -> nearest_even a m r -> rhe_div a m = r.
Proof.
  intros Hm H. apply (nearest_even_unique a m); [done| |done].
  by apply rhe_div_nearest.
Qed.

(** Rounding depends on the ratio only. *)
Lemma rhe_div_ratio a b a' b' :
  0 < b -> 0 < b' -> a * b' = a' * b -> rhe_div a b = rhe_div a' b'.
Proof.
  intros Hb Hb' E. apply rhe_div_unique; [done|].
  destruct (rhe_div_nearest a' b' Hb') as [[H1 H2] H3].
  set (r := rhe_div a' b') in *.
  split; [nia|]. intros [H|H]; apply H3; [left|right]; nia.
Qed.

Lemma rhe_div_exact a m : 0 < m -> rhe_div (a * m) m = a.
Proof.
  intros Hm. apply rhe_div_unique; [done|].
  split; [nia|]. intros [H|H]; exfalso; nia.
Qed.

Lemma rhe_div_1 a : rhe_div a 1 = a.
Proof. rewrite <- (Z.mul_1_r a) at 1. by apply rhe_div_exact. Qed.

Lemma rhe_div_opp a m : 0 < m -> rhe_div (- a) m = - rhe_div a m.
Proof.
  intros Hm. apply rhe_div_unique; [done|].
  destruct (rhe_div_nearest a m Hm) as [[H1 H2] H3].
  set (r := rhe_div a m) in *.
  split; [nia|]. rewrite Z.even_opp. intros [H|H]; apply H3; [right|left]; nia.
Qed.

Lemma rhe_div_nonneg a m : 0 < m -> 0 <= a -> 0 <= rhe_div a m.
Proof.
  intros Hm Ha. destruct (rhe_div_nearest a m Hm) as [[H1 H2] H3]. nia.
Qed.

Lemma rhe_div_le a m n : 0 < m -> a <= n * m -> rhe_div a m <= n.
Proof.
  intros Hm Ha. destruct (rhe_div_nearest a m Hm) as [[H1 H2] H3]. nia.
Qed.

Lemma rhe_div_ge a m n : 0 < m -> n * m <= a -> n <= rhe_div a m.
Proof.
  intros Hm Ha. destruct (rhe_div_nearest a m Hm) as [[H1 H2] H3]. nia.
Qed.

Lemma pow10_half k : 1 <= k -> 10 ^ k = 2 * (5 * 10 ^ (k - 1)).
Proof.
  intros Hk. replace k with (Z.succ (k - 1)) at 1 by lia.
  rewrite Z.pow_succ_r by lia. lia.
Qed.

Lemma pow10_pos k : 0 <= k -> 0 < 10 ^ k.
Proof. intros H. apply Z.pow_pos_nonneg; lia. Qed.

(** The digit appended by [Decimal.__truediv__] to an inexact quotient
    stands for the remainder: rounding the adjusted quotient is rounding
    the exact one. *)
Lemma rhe_div_sticky n d k :
  0 < d -> 1 <= k -> n mod d <> 0 ->
  rhe_div (if (n / d) mod 5 =? 0 then n / d + 1 else n / d) (10 ^ k)
  = rhe_div n (d * 10 ^ k).
Proof.
  intros Hd Hk Hrem.
  pose proof (Z.div_mod n d ltac:(lia)) as Hdm.
  pose proof (Z.mod_pos_bound n d Hd) as Hr.
  set (c := n / d) in *. set (rem := n mod d) in *.
  pose proof (pow10_pos (k - 1) ltac:(lia)) as Hg.
  rewrite (pow10_half k Hk). set (g := 10 ^ (k - 1)) in *.
  assert (Hpos : 0 < d * (2 * (5 * g))) by nia.
  destruct (rhe_div_nearest n (d * (2 * (5 * g))) Hpos) as [[H1 H2] _].
  set (r := rhe_div n (d * (2 * (5 * g)))) in *.
  assert (Hlo : (2 * r - 1) * (5 * g) <= c) by nia.
  assert (Hhi : c + 1 <= (2 * r + 1) * (5 * g)) by nia.
  apply rhe_div_unique; [lia|].
  assert (Hmul : forall t, (t * (5 * g)) mod 5 = 0).
  { intros t. replace (t * (5 * g)) with (t * g * 5) by lia. apply Z.mod_mul. lia. }
  destruct (Z.eqb_spec (c mod 5) 0) as [E|E].
  - assert (E1 : (c + 1) mod 5 = 1).
    { rewrite <- Z.add_mod_idemp_l, E by lia. reflexivity. }
    split; [lia|]. intros [H|H]; exfalso.
    + assert (c + 1 = (2 * r - 1) * (5 * g)) as H' by lia.
      rewrite H', Hmul in E1. discriminate.
    + assert (c + 1 = (2 * r + 1) * (5 * g)) as H' by lia.
      rewrite H', Hmul in E1. discriminate.
  - split; [lia|]. intros [H|H]; exfalso; apply E.
    + replace c with ((2 * r - 1) * (5 * g)) by lia. apply Hmul.
    + replace c with ((2 * r + 1) * (5 * g)) by lia. apply Hmul.
Qed.

(** Rounding [N / D] first to [J] more digits and then to an integer is
    rounding it once, when [D] has at most [J] digits. *)
Lemma rhe_div_double N D J :
  0 < D -> 1 <= J -> D < 10 ^ J ->
  rhe_div (rhe_div (N * 10 ^ J) D) (10 ^ J) = rhe_div N D.
Proof.
  intros HD HJ HDM.
  pose proof (pow10_pos (J - 1) ltac:(lia)) as Hg.
  rewrite (pow10_half J HJ) in *. set (h := 5 * 10 ^ (J - 1)) in *.
  assert (Hh : 0 < h) by lia.
  destruct (rhe_div_nearest (N * (2 * h)) D HD) as [[A1 A2] _].
  set (a1 := rhe_div (N * (2 * h)) D) in *.
  destruct (rhe_div_nearest a1 (2 * h) ltac:(lia)) as [[B1 B2] B3].
  set (r := rhe_div a1 (2 * h)) in *.
  symmetry. apply rhe_div_unique; [done|].
  assert (Hup : 2 * N <= 2 * r * D + D).
  { assert (2 * N * (2 * h) < (2 * r * D + D + 1) * (2 * h)) by nia. nia. }
  assert (Hlo : 2 * r * D - D <= 2 * N).
  { assert ((2 * r * D - D - 1) * (2 * h) < 2 * N * (2 * h)) by nia. nia. }
  split; [lia|]. intros [H|H]; apply B3.
  - left. assert (- 1 <= (2 * r - 1) * h - a1 <= 1) by nia.
    assert (2 * a1 * D - D <= 2 * ((2 * r - 1) * D) * h <= 2 * a1 * D + D) by nia.
    assert (-1 <= 2 * ((2 * r - 1) * h - a1) <= 1) by nia. lia.
  - right. assert (2 * a1 * D - D <= 2 * ((2 * r + 1) * D) * h <= 2 * a1 * D + D) by nia.
    assert (-1 <= 2 * ((2 * r + 1) * h - a1) <= 1) by nia. lia.
Qed.

#[global] Instance round_half_even_proper : Proper (Qeq ==> eq) round_half_even.
Proof.
  intros x y E. unfold round_half_even.
  rewrite (Qfloor_comp _ _ E).
  assert (x - inject_Z (Qfloor y) == y - inject_Z (Qfloor y))%Q as -> by (rewrite E; reflexivity).
  reflexivity.
Qed.

Lemma round_half_even_make n p : round_half_even (n # p) = rhe_div n (Z.pos p).
Proof.
  unfold round_half_even, rhe_div.
  change (Qfloor (n # p)) with (n / Z.pos p).
  assert (E : ((n # p) - inject_Z (n / Z.pos p) ?= 1 # 2)%Q = (2 * (n mod Z.pos p) ?= Z.pos p)).
  { unfold Qcompare, Qminus, Qplus, Qopp, inject_Z. cbn [Qnum Qden].
    rewrite Z.mod_eq by lia.
    rewrite Pos.mul_1_r. 
    replace ((n * 1 + - (n / Z.pos p) * Z.pos p) * 2) with (2 * (n - Z.pos p * (n / Z.pos p))) by lia.
    rewrite Z.mul_1_l. reflexivity. }
  rewrite E. reflexivity.
Qed.

Lemma round_half_even_div N D :
  0 < D -> round_half_even (inject_Z N / inject_Z D) = rhe_div N D.
Proof.
  intros HD. destruct D as [|p|p]; try lia.
  rewrite <- Qmake_Qdiv. apply round_half_even_make.
Qed.

Lemma round_half_even_scaled c e :
  round_half_even (inject_Z c * (10 # 1) ^ e)
  = if 0 <=? e then c * 10 ^ e else rhe_div c (10 ^ (- e)).
Proof.
  destruct (Z.leb_spec 0 e) as [He|He].
  - rewrite <- inject_pow10, <- inject_Z_mult by done.
    rewrite <- (rhe_div_1 (c * 10 ^ e)) at 2.
    rewrite <- round_half_even_div by lia.
    apply round_half_even_proper. change (inject_Z 1) with 1%Q. field.
  - rewrite <- round_half_even_div by (apply pow10_pos; lia).
    apply round_half_even_proper.
    rewrite inject_pow10 by lia. rewrite Qpower_opp. unfold Qdiv.
    rewrite Qinv_involutive. reflexivity.
Qed.

(** ** Decimal: number of digits and the context precision *)

Lemma pow10_le_mono a b : 0 <= a <= b -> 10 ^ a <= 10 ^ b.
Proof. intros H. apply Z.pow_le_mono_r; lia. Qed.

Lemma ndigits_unique c d : 10 ^ (d - 1) <= c < 10 ^ d -> 1 <= d -> ndigits c = d.
Proof.
  intros [Hlo Hhi] Hd.
  assert (Hc : 0 < c) by (pose proof (pow10_pos (d - 1)); lia).
  destruct (ndigits_spec c Hc) as [[Hlo' Hhi'] Hn].
  destruct (Z.lt_trichotomy (ndigits c) d) as [H|[H|H]]; [|done|].
  - pose proof (pow10_le_mono (ndigits c) (d - 1)). lia.
  - pose proof (pow10_le_mono d (ndigits c - 1)). lia.
Qed.

Lemma ndigits_mul_pow c n : 0 < c -> 0 <= n -> ndigits (c * 10 ^ n) = ndigits c + n.
Proof.
  intros Hc Hn. destruct (ndigits_spec c Hc) as [[Hlo Hhi] Hd].
  pose proof (pow10_pos n Hn).
  apply ndigits_unique; [|lia].
  replace (ndigits c + n - 1) with (ndigits c - 1 + n) by lia.
  rewrite !Z.pow_add_r by lia. nia.
Qed.

Lemma ndigits_lt c d : 0 < c -> c < 10 ^ d -> ndigits c <= d.
Proof.
  intros Hc H. destruct (ndigits_spec c Hc) as [[Hlo Hhi] Hd].
  destruct (Z.le_gt_cases (ndigits c) d) as [|Hgt]; [done|].
  destruct (Z.le_gt_cases 0 d) as [H0|H0].
  - pose proof (pow10_le_mono d (ndigits c - 1)). lia.
  - rewrite Z.pow_neg_r in H by lia. lia.
Qed.

Lemma pow10_prec_bounds : 0 < 10 ^ (prec - 1) ∧ 10 ^ (prec - 1) * 10 = 10 ^ prec.
Proof. split; reflexivity. Qed.

Lemma fix_pos c e :
  0 < c ->
  ∃ k cq eq,
    fix_ (mkDecimal c e) = mkDecimal cq eq ∧
    (k = 0 ∧ cq = c ∧ eq = e ∨ 1 <= k ∧ ndigits c = prec + k) ∧
    0 < cq < 10 ^ prec ∧ e + k <= eq ∧
    cq * 10 ^ (eq - e - k) = rhe_div c (10 ^ k) ∧
    ndigits cq + eq <= ndigits c + e + 1.
Proof.
  intros Hc. unfold fix_. cbn [coef expo]. rewrite Z.abs_eq, Z.sgn_pos by lia.
  destruct (ndigits_spec c Hc) as [[Hlo Hhi] Hn].
  destruct pow10_prec_bounds as [P1 P2].
  assert (Hprec : 1 <= prec) by (unfold prec; lia).
  destruct (Z.leb_spec (ndigits c) prec) as [Hle|Hgt].
  - exists 0, c, e. split; [reflexivity|]. split; [auto|].
    pose proof (pow10_le_mono (ndigits c) prec).
    replace (e - e - 0) with 0 by lia. rewrite rhe_div_1, Z.pow_0_r. lia.
  - set (k := ndigits c - prec) in *.
    assert (Hk : 1 <= k) by lia.
    pose proof (pow10_pos k ltac:(lia)) as Hpk.
    assert (Hlo' : 10 ^ (prec - 1) * 10 ^ k <= c).
    { rewrite <- Z.pow_add_r by lia.
      replace (prec - 1 + k) with (ndigits c - 1) by lia. exact Hlo. }
    assert (Hhi' : c <= 10 ^ prec * 10 ^ k).
    { rewrite <- Z.pow_add_r by lia.
      replace (prec + k) with (ndigits c) by lia. lia. }
    pose proof (rhe_div_ge c (10 ^ k) _ Hpk Hlo') as H1.
    pose proof (rhe_div_le c (10 ^ k) _ Hpk Hhi') as H2.
    set (c2 := rhe_div c (10 ^ k)) in *.
    destruct (Z.eqb_spec c2 (10 ^ prec)) as [E|E].
    + exists k, (10 ^ (prec - 1)), (e + k + 1). rewrite Z.mul_1_l.
      split; [reflexivity|]. split; [right; lia|].
      split; [lia|]. split; [lia|].
      replace (e + k + 1 - e - k) with 1 by lia. rewrite Z.pow_1_r.
      split; [lia|].
      assert (ndigits (10 ^ (prec - 1)) <= prec) by (apply ndigits_lt; lia). lia.
    + exists k, c2, (e + k). rewrite Z.mul_1_l.
      split; [reflexivity|]. split; [right; lia|].
      split; [lia|]. split; [lia|].
      replace (e + k - e - k) with 0 by lia. rewrite Z.pow_0_r. split; [lia|].
      assert (ndigits c2 <= prec) by (apply ndigits_lt; lia). lia.
Qed.
Lemma fix_sgn σ c e :
  σ = 1 ∨ σ = -1 -> 0 < c ->
  fix_ (mkDecimal (σ * c) e)
  = mkDecimal (σ * coef (fix_ (mkDecimal c e))) (expo (fix_ (mkDecimal c e))).
Proof.
  intros Hσ Hc. unfold fix_. cbn [coef expo].
  assert (Z.abs (σ * c) = c) as -> by (destruct Hσ; subst; lia).
  assert (Z.sgn (σ * c) = σ) as -> by (destruct Hσ; subst; lia).
  rewrite (Z.abs_eq c), (Z.sgn_pos c) by lia.
  destruct (ndigits c <=? prec); [reflexivity|].
  destruct (rhe_div c (10 ^ (ndigits c - prec)) =? 10 ^ prec); cbn [coef expo];
    rewrite !Z.mul_1_l; reflexivity.
Qed.
Lemma strip_zeros_spec fuel : ∀ c e ideal,
  ∃ z, 0 <= z ∧ strip_zeros fuel c e ideal = ((strip_zeros fuel c e ideal).1, e + z) ∧
       c = (strip_zeros fuel c e ideal).1 * 10 ^ z.
Proof.
  induction fuel as [|fuel IH]; intros c e ideal; cbn [strip_zeros].
  - exists 0. simpl. split; [lia|]. split; [f_equal; lia | lia].
  - destruct ((e <? ideal) && (c mod 10 =? 0)) eqn:E.
    + apply andb_true_iff in E as [_ E%Z.eqb_eq].
      destruct (IH (c / 10) (e + 1) ideal) as (z & Hz & H1 & H2).
      exists (z + 1). split; [lia|]. split.
      * rewrite H1 at 1. f_equal. lia.
      * rewrite Z.pow_add_r by lia.
        pose proof (Z.div_mod c 10 ltac:(lia)). nia.
    + exists 0. simpl. split; [lia|]. split; [f_equal; lia | lia].
Qed.

(** The loop stops on its own before the fuel runs out: more fuel than
    the number of digits changes nothing. *)
Lemma strip_zeros_fuel fuel : ∀ c e ideal extra,
  0 < c -> ndigits c <= Z.of_nat fuel ->
  strip_zeros (fuel + extra) c e ideal = strip_zeros fuel c e ideal.
Proof.
  induction fuel as [|fuel IH]; intros c e ideal extra Hc Hn.
  - destruct (ndigits_spec c Hc) as [_ H1]. lia.
  - cbn [strip_zeros Nat.add].
    destruct ((e <? ideal) && (c mod 10 =? 0)) eqn:E; [|reflexivity].
    apply andb_true_iff in E as [_ E%Z.eqb_eq].
    pose proof (Z.div_mod c 10 ltac:(lia)) as Hdm.
    assert (Hq : 0 < c / 10) by lia.
    apply IH; [exact Hq|].
    assert (ndigits c = ndigits (c / 10) + 1) as Hd.
    { rewrite <- (ndigits_mul_pow (c / 10) 1) by lia.
      f_equal. rewrite Z.pow_1_r. lia. }
    lia.
Qed.

(** ** Decimal: division, multiplication by 100 and round *)

Lemma div_eucl_div_mod a b : Z.div_eucl a b = (a / b, a mod b).
Proof. unfold Z.div, Z.modulo. by destruct (Z.div_eucl a b). Qed.

Lemma pow10_prec_2 : 10 ^ (prec + 2) = 10 ^ prec * 100 ∧ 10 ^ (prec + 2) mod 5 = 0.
Proof. split; reflexivity. Qed.

(** The quotient of two positive coefficients, before [fix_]: between
    29 and 30 digits, exact or with the sticky digit. *)
Lemma div_pos ca ea cb eb σ :
  σ = 1 ∨ σ = -1 -> 0 < ca < 10 ^ prec -> 0 < cb ->
  let s := ndigits cb - ndigits ca + prec + 1 in
  let e0 := ea - eb - s in
  ∃ K cq eq,
    div (mkDecimal (σ * ca) ea) (mkDecimal cb eb) = Some (mkDecimal (σ * cq) eq) ∧
    0 <= K ∧ 0 < cq < 10 ^ prec ∧ e0 + K <= eq ∧
    cq * 10 ^ (eq - e0 - K) = rhe_div (ca * 10 ^ s) (cb * 10 ^ K) ∧
    ndigits cq + eq <= ndigits ca - ndigits cb + (ea - eb) + 2 ∧
    (ca * 10 ^ s = rhe_div (ca * 10 ^ s) (cb * 10 ^ K) * (cb * 10 ^ K) ∨ 1 <= K <= 2).
Proof.
  intros Hσ [Hca Hca'] Hcb s e0.
  destruct (ndigits_spec ca Hca) as [[Alo Ahi] Ala].
  destruct (ndigits_spec cb Hcb) as [[Blo Bhi] Blb].
  assert (Hla : ndigits ca <= prec) by (apply ndigits_lt; lia).
  assert (Hprec : prec = 28) by reflexivity.
  assert (Hs : 2 <= s) by (unfold s; lia).
  destruct pow10_prec_2 as [P30 P30'].
  pose proof (pow10_pos prec ltac:(lia)) as Pprec.
  (* bounds on the dividend *)
  assert (Hnlo : cb * 10 ^ prec <= ca * 10 ^ s).
  { assert (10 ^ (ndigits cb) * 10 ^ prec = 10 ^ (ndigits ca - 1) * 10 ^ s) as E.
    { rewrite <- !Z.pow_add_r by lia. f_equal. unfold s. lia. }
    pose proof (pow10_pos s ltac:(lia)). nia. }
  assert (Hnhi : ca * 10 ^ s < cb * 10 ^ (prec + 2)).
  { assert (10 ^ (ndigits cb - 1) * 10 ^ (prec + 2) = 10 ^ (ndigits ca) * 10 ^ s) as E.
    { rewrite <- !Z.pow_add_r by lia. f_equal. unfold s. lia. }
    pose proof (pow10_pos s ltac:(lia)).
    pose proof (pow10_pos (prec + 2) ltac:(lia)). nia. }
  pose proof (Z.div_mod (ca * 10 ^ s) cb ltac:(lia)) as Hdm.
  pose proof (Z.mod_pos_bound (ca * 10 ^ s) cb Hcb) as Hrem.
  assert (Hc0lo : 10 ^ prec <= ca * 10 ^ s / cb).
  { apply Z.div_le_lower_bound; lia. }
  assert (Hc0hi : ca * 10 ^ s / cb < 10 ^ (prec + 2)).
  { apply Z.div_lt_upper_bound; lia. }
  unfold div. cbn [coef expo].
  assert (Z.abs (σ * ca) = ca) as -> by (destruct Hσ; subst; lia).
  assert (Z.sgn (σ * ca) * Z.sgn cb = σ) as -> by (destruct Hσ; subst; lia).
  rewrite (Z.abs_eq cb) by lia. fold s. fold e0.
  destruct (Z.eqb_spec cb 0) as [|_]; [lia|].
  destruct (Z.eqb_spec (σ * ca) 0) as [|_]; [destruct Hσ; subst; lia|].
  destruct (Z.leb_spec 0 s) as [_|]; [|lia].
  rewrite div_eucl_div_mod.
  set (c0 := ca * 10 ^ s / cb) in *. set (rem := (ca * 10 ^ s) mod cb) in *.
  destruct (Z.eqb_spec rem 0) as [Hr0|Hr0].
  - (* exact quotient: trailing zeros are removed *)
    destruct (strip_zeros_spec (Z.to_nat (ndigits c0)) c0 e0 (ea - eb))
      as (z & Hz & Hstrip & Hc0).
    set (c1 := (strip_zeros (Z.to_nat (ndigits c0)) c0 e0 (ea - eb)).1) in *.
    rewrite Hstrip.
    pose proof (pow10_pos z Hz) as Pz.
    assert (Hc1 : 0 < c1) by nia.
    rewrite (fix_sgn σ c1 (e0 + z) Hσ Hc1).
    destruct (fix_pos c1 (e0 + z) Hc1) as (k & cq & eq & Hfix & Halt & Hcq & Heq & Hval & Hadj).
    rewrite Hfix. cbn [coef expo].
    assert (Hk : 0 <= k) by (destruct Halt as [[-> _]|[? _]]; lia).
    assert (Hnd0 : ndigits c0 = ndigits c1 + z).
    { rewrite Hc0. by apply ndigits_mul_pow. }
    assert (Hnd0' : ndigits c0 <= prec + 2) by (apply ndigits_lt; lia).
    assert (Hexact : ca * 10 ^ s = cb * (c1 * 10 ^ z)) by lia.
    assert (Hround : rhe_div c1 (10 ^ k) = rhe_div (ca * 10 ^ s) (cb * 10 ^ (z + k))).
    { pose proof (pow10_pos k Hk). pose proof (pow10_pos (z + k) ltac:(lia)).
      apply rhe_div_ratio; [lia|nia|].
      rewrite Hexact, Z.pow_add_r by lia. ring. }
    exists (z + k), cq, eq.
    split; [reflexivity|]. split; [lia|]. split; [lia|]. split; [lia|].
    split; [|split].
    + replace (eq - e0 - (z + k)) with (eq - (e0 + z) - k) by lia.
      by rewrite Hval.
    + unfold e0, s in *. lia.
    + destruct Halt as [(-> & -> & ->)|[Hk1 Hnd]].
      * left. rewrite <- Hround, rhe_div_1, Z.add_0_r. lia.
      * right. lia.
  - (* inexact quotient: the sticky digit *)
    set (c1 := if c0 mod 5 =? 0 then c0 + 1 else c0).
    assert (Hc1 : 10 ^ prec <= c1 < 10 ^ (prec + 2)).
    { unfold c1. destruct (Z.eqb_spec (c0 mod 5) 0) as [E|E]; [|lia].
      assert ((c0 + 1) mod 5 = 1) as E1.
      { rewrite <- Z.add_mod_idemp_l, E by lia. reflexivity. }
      assert (c0 + 1 <> 10 ^ (prec + 2)) by (intros E2; rewrite E2, P30' in E1; lia).
      lia. }
    assert (Hc1pos : 0 < c1) by lia.
    rewrite (fix_sgn σ c1 e0 Hσ Hc1pos).
    destruct (fix_pos c1 e0 Hc1pos) as (k & cq & eq & Hfix & Halt & Hcq & Heq & Hval & Hadj).
    rewrite Hfix. cbn [coef expo].
    assert (Hnd1 : ndigits c1 <= prec + 2) by (apply ndigits_lt; lia).
    destruct Halt as [(-> & -> & ->)|[Hk1 Hnd]]; [lia|].
    exists k, cq, eq.
    split; [reflexivity|]. split; [lia|]. split; [lia|]. split; [lia|].
    split; [|split].
    + rewrite Hval. unfold c1, c0. by apply rhe_div_sticky.
    + unfold e0, s in *. lia.
    + right. lia.
Qed.

(** Digits moved from the coefficient to the exponent. *)
Lemma dval_shift c e n :
  0 <= n -> (dval (mkDecimal (c * 10 ^ n) e) == dval (mkDecimal c (e + n)))%Q.
Proof.
  intros Hn. unfold dval. cbn [coef expo].
  rewrite <- (dval_scale c (e + n) n Hn).
  replace (e + n - n) with e by lia. reflexivity.
Qed.

Lemma dval_times_10 c e : (dval (mkDecimal c e) * 10 == inject_Z c * (10 # 1) ^ (e + 1))%Q.
Proof.
  unfold dval. cbn [coef expo]. rewrite Qpower_plus by apply ten_nonzero.
  change ((10 # 1) ^ 1)%Q with 10%Q. ring.
Qed.

(** [q * 100] is exact for a coefficient within the precision. *)
Lemma mul_100 σ cq eq :
  σ = 1 ∨ σ = -1 -> 0 < cq < 10 ^ prec ->
  ∃ cx ex,
    mul (mkDecimal (σ * cq) eq) (of_int 100) = mkDecimal (σ * cx) ex ∧
    0 < cx < 10 ^ prec ∧ eq <= ex ∧ cx * 10 ^ (ex - eq) = cq * 100 ∧
    ndigits cx + ex = ndigits cq + eq + 2.
Proof.
  intros Hσ [Hcq Hcq'].
  assert (Hprec : prec = 28) by reflexivity.
  unfold mul, of_int. cbn [coef expo]. rewrite Z.add_0_r.
  replace (σ * cq * 100) with (σ * (cq * 100)) by lia.
  assert (Hc : 0 < cq * 100) by lia.
  rewrite (fix_sgn σ _ eq Hσ Hc).
  destruct (fix_pos (cq * 100) eq Hc) as (k & cx & ex & Hfix & Halt & Hcx & Hex & Hval & _).
  rewrite Hfix. cbn [coef expo].
  assert (Hnd : ndigits (cq * 100) = ndigits cq + 2).
  { change 100 with (10 ^ 2). apply ndigits_mul_pow; lia. }
  assert (Hndq : ndigits cq <= prec) by (apply ndigits_lt; lia).
  assert (Hgoal : eq <= ex ∧ cx * 10 ^ (ex - eq) = cq * 100).
  { destruct Halt as [(-> & -> & ->)|[Hk1 Hndk]].
    - split; [lia|]. rewrite Z.sub_diag, Z.pow_0_r. lia.
    - split; [lia|].
      assert (E : rhe_div (cq * 100) (10 ^ k) = cq * 10 ^ (2 - k)).
      { pose proof (pow10_pos k ltac:(lia)).
        rewrite <- (rhe_div_exact (cq * 10 ^ (2 - k)) (10 ^ k)) by lia.
        f_equal. rewrite <- Z.mul_assoc, <- Z.pow_add_r by lia.
        replace (2 - k + k) with 2 by lia. reflexivity. }
      rewrite E in Hval.
      replace (ex - eq) with (ex - eq - k + k) by lia.
      rewrite Z.pow_add_r, Z.mul_assoc, Hval by lia.
      rewrite <- Z.mul_assoc, <- Z.pow_add_r by lia.
      replace (2 - k + k) with 2 by lia. reflexivity. }
  exists cx, ex. split; [reflexivity|]. split; [lia|].
  destruct Hgoal as [G1 G2]. split; [done|]. split; [done|].
  assert (ndigits (cx * 10 ^ (ex - eq)) = ndigits cx + (ex - eq)) as E1
    by (apply ndigits_mul_pow; lia).
  rewrite G2, Hnd in E1. lia.
Qed.

(** [round(x, 1)] for a coefficient within the precision and a value
    below 10^27: the value times ten, rounded half-even. *)
Lemma round_1 σ cx ex :
  σ = 1 ∨ σ = -1 -> 0 < cx < 10 ^ prec -> ndigits cx + ex <= prec - 1 ->
  round (mkDecimal (σ * cx) ex) 1
  = Some (mkDecimal (round_half_even (dval (mkDecimal (σ * cx) ex) * 10)) (-1)).
Proof.
  intros Hσ [Hcx Hcx'] Hadj.
  assert (Hprec : prec = 28) by reflexivity.
  destruct pow10_prec_bounds as [P1 P2].
  rewrite dval_times_10, round_half_even_scaled.
  unfold round, quantize, rescale. cbn [coef expo].
  change (- (1)) with (-1).
  assert (Z.abs (σ * cx) = cx) as Habs by (destruct Hσ; subst; lia).
  rewrite Habs.
  destruct (Z.eqb_spec (σ * cx) 0) as [|_]; [destruct Hσ; subst; lia|].
  destruct (Z.ltb_spec prec (ex + ndigits cx - 1 - -1 + 1)) as [|_]; [lia|].
  replace (ex - -1) with (ex + 1) by lia.
  destruct (ndigits_spec cx Hcx) as [[Hlo Hhi] Hn].
  destruct (Z.leb_spec (-1) ex) as [He|He].
  - destruct (Z.leb_spec 0 (ex + 1)) as [_|]; [|lia].
    cbn [coef].
    assert (Z.abs (σ * cx * 10 ^ (ex + 1)) = cx * 10 ^ (ex + 1)) as ->.
    { pose proof (pow10_pos (ex + 1) ltac:(lia)). destruct Hσ; subst; nia. }
    rewrite ndigits_mul_pow by lia.
    destruct (Z.ltb_spec prec (ndigits cx + (ex + 1))) as [|_]; [lia|]. reflexivity.
  - destruct (Z.leb_spec 0 (ex + 1)) as [|_]; [lia|].
    replace (-1 - ex) with (- (ex + 1)) by lia.
    pose proof (pow10_pos (- (ex + 1)) ltac:(lia)) as Hm.
    assert (Z.sgn (σ * cx) = σ) as -> by (destruct Hσ; subst; lia).
    assert (Hr : σ * rhe_div cx (10 ^ (- (ex + 1))) = rhe_div (σ * cx) (10 ^ (- (ex + 1)))).
    { destruct Hσ; subst.
      - by rewrite !Z.mul_1_l.
      - replace (-1 * cx) with (- cx) by lia. rewrite rhe_div_opp by done. lia. }
    rewrite Hr. cbn [coef].
    assert (Hb : 0 <= rhe_div cx (10 ^ (- (ex + 1))) <= 10 ^ (prec - 1)).
    { split; [apply rhe_div_nonneg; lia|].
      apply rhe_div_le; [done|].
      assert (10 ^ 1 <= 10 ^ (- (ex + 1))) by (apply pow10_le_mono; lia).
      rewrite Z.pow_1_r in *. nia. }
    assert (Z.abs (rhe_div (σ * cx) (10 ^ (- (ex + 1)))) = rhe_div cx (10 ^ (- (ex + 1)))) as ->.
    { rewrite <- Hr. destruct Hσ; subst; lia. }
    assert (ndigits (rhe_div cx (10 ^ (- (ex + 1)))) <= prec) as Hnd.
    { apply ndigits_le; lia. }
    destruct (Z.ltb_spec prec (ndigits (rhe_div cx (10 ^ (- (ex + 1)))))) as [|_]; [lia|].
    reflexivity.
Qed.

Lemma dval_mul_exact a ea b eb :
  (dval (mkDecimal a ea) * dval (mkDecimal b eb) == dval (mkDecimal (a * b) (ea + eb)))%Q.
Proof.
  unfold dval. cbn [coef expo].
  rewrite inject_Z_mult, Qpower_plus by apply ten_nonzero. ring.
Qed.

Lemma dval_nonzero c e : c <> 0 -> ~ (dval (mkDecimal c e) == 0)%Q.
Proof.
  intros Hc H. unfold dval in H. cbn [coef expo] in H.
  apply Qmult_integral in H as [H|H].
  - apply Hc. change 0%Q with (inject_Z 0) in H. by rewrite inject_Z_injective in H.
  - pose proof (Qpow10_pos e) as Hp. rewrite H in Hp. by apply Qlt_irrefl in Hp.
Qed.

Lemma dval_pos_iff d : (0 < dval d)%Q <-> 0 < coef d.
Proof.
  unfold dval. pose proof (Qpow10_pos (expo d)) as Hp. split.
  - intros H. destruct (Z.le_gt_cases (coef d) 0) as [Hc|Hc]; [exfalso|lia].
    assert (inject_Z (coef d) <= 0)%Q as Hle
      by (change 0%Q with (inject_Z 0); by rewrite <- Zle_Qle).
    apply (Qmult_le_compat_r _ _ ((10 # 1) ^ expo d)) in Hle; [|by apply Qlt_le_weak].
    rewrite Qmult_0_l in Hle. by apply (Qlt_irrefl 0), (Qlt_le_trans _ _ _ H).
  - intros H. apply Qmult_lt_0_compat; [|done].
    change 0%Q with (inject_Z 0). by rewrite <- Zlt_Qlt.
Qed.

Lemma gtb_zero d : gtb d (of_int 0) = true <-> 0 < coef d.
Proof.
  rewrite <- dval_pos_iff. unfold gtb, ltb. rewrite compare_dval, dval_of_int_0.
  rewrite Qlt_alt. destruct (0 ?= dval d)%Q; split; congruence.
Qed.

(** An exactly represented quotient has the value of the ratio. *)
Lemma dval_quotient_exact σ ca ea cb eb s K cq eq :
  0 < cb -> 0 <= s -> 0 <= K -> ea - eb - s + K <= eq ->
  ca * 10 ^ s = cq * 10 ^ (eq - (ea - eb - s) - K) * (cb * 10 ^ K) ->
  (dval (mkDecimal (σ * cq) eq)
   == dval (mkDecimal (σ * ca) ea) / dval (mkDecimal cb eb))%Q.
Proof.
  intros Hcb Hs HK Heq E.
  set (n := eq - (ea - eb - s) - K) in *.
  assert (Hz : ~ (dval (mkDecimal cb eb) == 0)%Q) by (apply dval_nonzero; lia).
  assert (H : (dval (mkDecimal (σ * ca) ea)
               == dval (mkDecimal (σ * cq) eq) * dval (mkDecimal cb eb))%Q).
  { rewrite dval_mul_exact.
    replace ea with (ea - s + s) at 1 by lia.
    rewrite <- (dval_shift (σ * ca) (ea - s) s Hs).
    replace (σ * ca * 10 ^ s) with (σ * cq * cb * 10 ^ (n + K)).
    2:{ rewrite Z.pow_add_r by lia.
        transitivity (σ * (ca * 10 ^ s)); [rewrite E; ring | ring]. }
    rewrite (dval_shift _ _ (n + K)) by lia.
    replace (ea - s + (n + K)) with (eq + eb) by lia. reflexivity. }
  rewrite H. rewrite Qdiv_mult_l by done. reflexivity.
Qed.

(** The ratio of two Decimals, times 1000, as a ratio of integers. *)
Lemma dval_ratio_1000 c ea cb eb :
  0 < cb -> 0 <= ea - eb + 3 ->
  (dval (mkDecimal c ea) / dval (mkDecimal cb eb) * 100 * 10
   == inject_Z (c * 10 ^ (ea - eb + 3)) / inject_Z cb)%Q.
Proof.
  intros Hcb Hd.
  assert (Hz : ~ (inject_Z cb == 0)%Q).
  { change 0%Q with (inject_Z 0). rewrite inject_Z_injective. lia. }
  pose proof (Qpow10_pos eb) as Hp.
  assert (Hpz : ~ ((10 # 1) ^ eb == 0)%Q) by (intros H; rewrite H in Hp; by apply Qlt_irrefl in Hp).
  unfold dval. cbn [coef expo].
  rewrite inject_Z_mult, inject_pow10 by done.
  replace ea with (eb + (ea - eb + 3) + (-3)) at 1 by lia.
  rewrite !Qpower_plus by apply ten_nonzero.
  change ((10 # 1) ^ (-3))%Q with (1 # 1000)%Q.
  field. split; done.
Qed.

Lemma rhe_div_sign σ c m :
  σ = 1 ∨ σ = -1 -> 0 < m -> rhe_div (σ * c) m = σ * rhe_div c m.
Proof.
  intros [->| ->] Hm.
  - by rewrite !Z.mul_1_l.
  - replace (-1 * c) with (- c) by lia. rewrite rhe_div_opp by done. lia.
Qed.

Lemma dval_mul_100 σ cq eq cx ex :
  eq <= ex -> cx * 10 ^ (ex - eq) = cq * 100 ->
  (dval (mkDecimal (σ * cx) ex) == dval (mkDecimal (σ * cq) eq) * 100)%Q.
Proof.
  intros He E.
  replace ex with (eq + (ex - eq)) at 1 by lia.
  rewrite <- dval_shift by lia.
  replace (σ * cx * 10 ^ (ex - eq)) with (σ * cq * 100) by (rewrite <- !Z.mul_assoc, E; ring).
  unfold dval. cbn [coef expo]. rewrite inject_Z_mult.
  change (inject_Z 100) with 100%Q. ring.
Qed.

(** The percentage for a positive target: the exact ratio times 100,
    rounded half-even to one decimal place, provided 1000 times the
    realized amount, counted in units of the target's last digit, stays
    below 10^27. *)
Lemma percentual_de_positive r vm :
  0 < coef vm ->
  -3 <= expo r - expo vm ->
  Z.abs (coef r) * 10 ^ (expo r - expo vm + 3) < 10 ^ (prec - 1) ->
  percentual_de r vm
  = Retorna (mkDecimal (round_half_even (dval r / dval vm * 100 * 10)) (-1)).
Proof.
  intros Hvm Hδ Hb. unfold percentual_de. rewrite (proj2 (gtb_zero vm) Hvm).
  destruct r as [cr er], vm as [ct et]. cbn [coef expo] in *.
  assert (Hprec : prec = 28) by reflexivity.
  destruct pow10_prec_bounds as [P1 P2].
  destruct (Z.eq_dec cr 0) as [->|Hcr].
  { unfold div. cbn [coef expo].
    destruct (Z.eqb_spec ct 0) as [|_]; [lia|]. rewrite Z.eqb_refl.
    rewrite fix_small by (cbn [coef]; rewrite Z.abs_0; lia).
    unfold mul, of_int. cbn [coef expo]. rewrite Z.mul_0_l.
    rewrite fix_small by (cbn [coef]; rewrite Z.abs_0; lia).
    unfold round, quantize. cbn [coef]. rewrite Z.eqb_refl.
    reflexivity. }
  set (σ := Z.sgn cr). set (ca := Z.abs cr) in *.
  assert (Hσ : σ = 1 ∨ σ = -1) by (unfold σ; lia).
  assert (Hca : 0 < ca) by (unfold ca; lia).
  assert (Ecr : cr = σ * ca) by (unfold σ, ca; lia).
  set (δ3 := er - et + 3) in *.
  pose proof (pow10_pos δ3 ltac:(lia)) as Pδ.
  assert (Hca28 : ca < 10 ^ prec) by nia.
  destruct (ndigits_spec ca Hca) as [[Alo Ahi] Ala].
  destruct (ndigits_spec ct Hvm) as [[Blo Bhi] Blb].
  assert (Hmag : ndigits ca + δ3 <= prec - 1).
  { assert (10 ^ (ndigits ca - 1 + δ3) < 10 ^ (prec - 1)) as H.
    { rewrite Z.pow_add_r by lia. nia. }
    apply Z.pow_lt_mono_r_iff in H; lia. }
  rewrite Ecr.
  destruct (div_pos ca er ct et σ Hσ (conj Hca Hca28) Hvm)
    as (K & cq & eq & Hdiv & HK & Hcq & Heq & Hval & Hadj & Halt).
  set (s := ndigits ct - ndigits ca + prec + 1) in *.
  set (e0 := er - et - s) in *.
  assert (Hs : 0 <= s) by (unfold s; lia).
  rewrite Hdiv.
  destruct (mul_100 σ cq eq Hσ Hcq) as (cx & ex & Hmul & Hcx & Hex & Hxval & Hxadj).
  rewrite Hmul.
  rewrite (round_1 σ cx ex Hσ Hcx) by lia.
  do 2 f_equal.
  rewrite (dval_mul_100 σ cq eq cx ex Hex Hxval).
  destruct Halt as [Hexact|HK12].
  - (* the quotient is represented exactly *)
    rewrite (dval_quotient_exact σ ca er ct et s K cq eq Hvm Hs HK);
      [reflexivity | fold e0; lia | fold e0; rewrite Hval; exact Hexact].
  - (* the quotient was rounded to 28 digits *)
    set (J := - (e0 + K + 3)).
    assert (HJ : ndigits ct <= J) by (unfold J, e0, s; lia).
    set (c2 := rhe_div (ca * 10 ^ s) (ct * 10 ^ K)) in *.
    pose proof (pow10_pos J ltac:(lia)) as PJ.
    pose proof (pow10_pos K ltac:(lia)) as PK.
    assert (E1 : (dval (mkDecimal (σ * cq) eq) * 100 * 10
                  == inject_Z (σ * c2) * (10 # 1) ^ (- J))%Q).
    { replace eq with (e0 + K + (eq - e0 - K)) by lia.
      rewrite <- dval_shift by lia.
      replace (σ * cq * 10 ^ (eq - e0 - K)) with (σ * c2)
        by (rewrite <- Z.mul_assoc, Hval; reflexivity).
      unfold dval. cbn [coef expo].
      replace (- J) with (e0 + K + 3) by (unfold J; lia).
      rewrite (Qpower_plus _ (e0 + K) 3) by apply ten_nonzero.
      change ((10 # 1) ^ 3)%Q with 1000%Q. ring. }
    rewrite E1, round_half_even_scaled.
    destruct (Z.leb_spec 0 (- J)) as [|_]; [lia|].
    rewrite Z.opp_involutive.
    rewrite (dval_ratio_1000 (σ * ca) er ct et Hvm) by lia.
    rewrite (round_half_even_div _ ct Hvm). fold δ3.
    replace (σ * ca * 10 ^ δ3) with (σ * (ca * 10 ^ δ3)) by ring.
    rewrite (rhe_div_sign σ c2 (10 ^ J) Hσ PJ).
    rewrite (rhe_div_sign σ (ca * 10 ^ δ3) ct Hσ Hvm). f_equal.
    assert (E2 : c2 = rhe_div (ca * 10 ^ δ3 * 10 ^ J) ct).
    { unfold c2. apply rhe_div_ratio; [nia|exact Hvm|].
      assert (10 ^ s = 10 ^ δ3 * 10 ^ J * 10 ^ K) as ->.
      { rewrite <- !Z.pow_add_r by lia. f_equal. unfold J, e0, δ3. lia. }
      ring. }
    rewrite E2. apply rhe_div_double; [exact Hvm|lia|].
    assert (10 ^ ndigits ct <= 10 ^ J) by (apply pow10_le_mono; lia). lia.
Qed.

(** The lookup of the target, read from the table. *)
Lemma objects_get_unica ms vend m a meta :
  meta_unica ms vend m a meta -> objects_get ms vend m a = Retorna meta.
Proof.
  unfold objects_get.
  set (P := λ x : MetaComercial, meta_vendedor x = vend ∧ mes x = m ∧ ano x = a).
  destruct meta as [x|]; simpl.
  - intros ([k Hk] & Hx & Huniq).
    assert (Hin : x ∈ filter P (rows ms)).
    { apply list_elem_of_filter. split; [exact Hx|]. apply elem_of_rows. eauto. }
    assert (Hlen : ¬ (2 <= length (filter P (rows ms)))%nat).
    { intros (k1 & k2 & x1 & x2 & Hne & H1 & H2 & P1 & P2)%rows_filter_two.
      apply Hne. by eapply Huniq. }
    destruct (filter P (rows ms)) as [|y [|z l]]; simpl in Hlen.
    + by apply elem_of_nil in Hin.
    + apply list_elem_of_singleton in Hin. by subst.
    + lia.
  - intros Hno. rewrite (filter_nil_not_elem P); [reflexivity|].
    intros x [k Hk]%elem_of_rows. by apply (Hno k).
Qed.

Lemma Cenario_banco_meta7 : meta_unica (metas Cenario.banco) 7 6 2024 (Some Cenario.meta7).
Proof.
  split; [exists 1; reflexivity|]. split; [by repeat split|].
  intros k1 k2 x1 x2 H1 H2 _ _. unfold Cenario.banco in *. simpl in *.
  apply lookup_insert_Some in H1 as [[<- _]|[_ H1]]; [|by rewrite lookup_empty in H1].
  apply lookup_insert_Some in H2 as [[<- _]|[_ H2]]; [|by rewrite lookup_empty in H2].
  reflexivity.
Qed.

(** ** Commercial targets: the percentage *)

(** C6: [obter_meta_vendedor] on a table that holds at most one target for
    the seller and the resolved period.  The call returns; the target
    value it reports is that of the target row, or 0.00 when there is no
    row; the realized amount it reports is what [calcular_realizado]
    gives, the sum over the seller's closed opportunities of the period.
    If the target value is greater than 0 the percentage is the exact
    ratio realized / target times 100, rounded half-even to one decimal
    place (a Decimal with exponent -1), and otherwise the percentage is
    the Decimal 0.0.  For a positive target the realized amount is assumed
    to have at most three decimal places more than the target and, times
    1000 and counted in units of the target's last digit, to stay below
    10^27, which keeps the 28-digit quotient of the decimal context from
    changing the rounded result. *)
Theorem obter_meta_vendedor_percentual hoje bd vend m a meta ks :
  let mm := (resolve_mes_ano hoje m a).1 in
  let aa := (resolve_mes_ano hoje m a).2 in
  let alvo := match meta with
              | Some x => valor_meta x
              | None => mkDecimal 0 (-2)
              end in
  let realizado := soma_chaves (fechada_no_mes vend mm aa) (oportunidades bd) ks in
  meta_unica (metas bd) vend mm aa meta ->
  chaves_de (oportunidades bd) ks ->
  (0 < coef alvo ->
   let r := calcular_realizado (oportunidades bd) vend mm aa in
   -3 <= expo r - expo alvo ∧
   Z.abs (coef r) * 10 ^ (expo r - expo alvo + 3) < 10 ^ (prec - 1)) ->
  ∃ d, obter_meta_vendedor hoje bd vend m a = Retorna d ∧
       dados_meta d = meta ∧
       dados_valor_meta d = alvo ∧
       dados_realizado d = calcular_realizado (oportunidades bd) vend mm aa ∧
       (dval (dados_realizado d) == realizado)%Q ∧
       ((0 < dval alvo)%Q ->
        expo (dados_percentual d) = -1 ∧
        (dval (dados_percentual d)
         == round_1_place (realizado / dval alvo * 100))%Q) ∧
       (¬ (0 < dval alvo)%Q -> dados_percentual d = mkDecimal 0 (-1)).
Proof.
  intros mm aa alvo realizado Hmeta Hks Hbound.
  assert (Hreal : (dval (calcular_realizado (oportunidades bd) vend mm aa)
                   == realizado)%Q).
  { rewrite calcular_realizado_dval. by apply sum_where_chaves. }
  apply objects_get_unica in Hmeta.
  unfold obter_meta_vendedor. subst mm aa realizado.
  destruct (resolve_mes_ano hoje m a) as [m' a']. cbn [fst snd] in *.
  rewrite Hmeta.
  set (r := calcular_realizado (oportunidades bd) vend m' a') in *.
  change (match meta with
          | Some x => valor_meta x
          | None => mkDecimal 0 (-2)
          end) with alvo.
  destruct (Z.lt_ge_cases 0 (coef alvo)) as [Hpos|Hneg].
  - destruct (Hbound Hpos) as [Hd Hb].
    rewrite (percentual_de_positive r alvo Hpos Hd Hb).
    eexists. split; [reflexivity|]. cbn [dados_meta dados_valor_meta
      dados_realizado dados_percentual coef expo].
    split; [reflexivity|]. split; [reflexivity|]. split; [reflexivity|].
    split; [exact Hreal|]. split.
    + intros _. split; [reflexivity|].
      unfold round_1_place, dval at 1. cbn [coef expo].
      change ((10 # 1) ^ (-1))%Q with (/ inject_Z 10)%Q.
      assert (E : round_half_even (dval r / dval alvo * 100 * inject_Z 10)
                  = round_half_even
                      (soma_chaves (fechada_no_mes vend m' a') (oportunidades bd) ks
                       / dval alvo * 100 * inject_Z 10)).
      { apply round_half_even_proper. rewrite Hreal. reflexivity. }
      rewrite <- E. reflexivity.
    + intros Hn. exfalso. by apply Hn, dval_pos_iff.
  - assert (gtb alvo (of_int 0) = false) as Hg.
    { destruct (gtb alvo (of_int 0)) eqn:E; [|reflexivity].
      apply gtb_zero in E. lia. }
    unfold percentual_de. rewrite Hg.
    eexists. split; [reflexivity|]. cbn [dados_meta dados_valor_meta
      dados_realizado dados_percentual].
    split; [reflexivity|]. split; [reflexivity|]. split; [reflexivity|].
    split; [exact Hreal|]. split; [|reflexivity].
    intros Hp%dval_pos_iff. lia.
Qed.

Lemma obter_meta_vendedor_percentual_witness :
  ∃ d, obter_meta_vendedor Cenario.julho Cenario.banco 7 (Some 6) (Some 2024)
       = Retorna d ∧
       dados_valor_meta d = mkDecimal 100000 (-2) ∧
       dados_realizado d = mkDecimal 60000 (-2) ∧
       dados_percentual d = mkDecimal 600 (-1) ∧
       (dval (dados_percentual d) == round_1_place (600 / 1000 * 100))%Q.
Proof.
  assert (Hrun : obter_meta_vendedor Cenario.julho Cenario.banco 7
                   (Some 6) (Some 2024)
                 = Retorna (mkDadosMeta (Some Cenario.meta7)
                              (mkDecimal 100000 (-2)) (mkDecimal 60000 (-2))
                              (mkDecimal 120000 (-2)) (mkDecimal 600 (-1))
                              "ATENCAO" 6 2024))
    by (vm_compute; reflexivity).
  destruct (obter_meta_vendedor_percentual Cenario.julho Cenario.banco 7
              (Some 6) (Some 2024) (Some Cenario.meta7) [1; 2; 3; 4]
              Cenario_banco_meta7 Cenario_ops_chaves)
    as (d & Hd & _ & Hv & Hr & _ & Hpos & _).
  - intros _. vm_compute. split; [discriminate | reflexivity].
  - exists d. split; [exact Hd|].
    rewrite Hrun in Hd. injection Hd as <-.
    cbn [dados_valor_meta dados_realizado dados_percentual] in *.
    split; [reflexivity|]. split; [reflexivity|]. split; [reflexivity|].
    destruct Hpos as [_ Hp]; [reflexivity|]. rewrite Hp. reflexivity.
Defined.

(** * Further properties: views, sequences of calls, amounts and settings *)
(** ** Stage transitions: what no call does *)

(** X1: the list operations of [avancar_etapa] on the six stages of the
    data model.  PERDIDA is the only stage that is not in [ORDEM_ETAPAS]
    and FECHAMENTO the only one without a successor there; these are the
    two stages the guards reject, so for an instance whose stage is one
    of the six, [avancar_etapa] raises neither the [ValueError] of
    [ORDEM_ETAPAS.index] nor the [IndexError] of
    [ORDEM_ETAPAS[idx_atual + 1]]. *)
Theorem avancar_etapa_lookup_never_fails agora w :
  (∀ e, index e ORDEM_ETAPAS = None ↔ e = PERDIDA) ∧
  (∀ e i, index e ORDEM_ETAPAS = Some i ->
          (ORDEM_ETAPAS !! S i = None ↔ e = FECHAMENTO)) ∧
  (avancar_etapa agora w).1 ≠ Levanta ValueError ∧
  (avancar_etapa agora w).1 ≠ Levanta IndexError.
Proof.
  split; [intros e; destruct e; simpl; split; congruence|].
  split.
  { intros e i. destruct e; simpl; intros [= <-]; simpl; split; congruence. }
  rewrite avancar_etapa_run.
  destruct (etapa (objeto w)); simpl;
    destruct (tabela w !! pk (objeto w)); simpl; split; discriminate.
Qed.

(** X2: a transition on an instance that has no row.  When the table has
    no row with the primary key of the instance and the stage is not
    [FECHAMENTO], [marcar_perdida] raises [DatabaseError] (and so does
    [avancar_etapa] when the stage is not [PERDIDA] either); the table is
    unchanged, but the instance in memory already carries the new stage and
    the new update time. *)
Theorem transicao_sem_linha agora w :
  tabela w !! pk (objeto w) = None ->
  etapa (objeto w) ≠ FECHAMENTO ->
  (etapa (objeto w) ≠ PERDIDA ->
   ∃ prox, ORDEM_ETAPAS !! S (posicao (etapa (objeto w))) = Some prox ∧
           avancar_etapa agora w
           = (Levanta DatabaseError,
              mkMundo (com_atualizado_em (com_etapa (objeto w) prox) agora)
                      (tabela w))) ∧
  marcar_perdida agora w
  = (Levanta DatabaseError,
     mkMundo (com_atualizado_em (com_etapa (objeto w) PERDIDA) agora) (tabela w)).
Proof.
  intros Hl Hf. rewrite avancar_etapa_run, marcar_perdida_run, Hl.
  destruct (etapa (objeto w)); try congruence; simpl;
    (split; [intros Hp; try congruence; eexists; split; reflexivity | reflexivity]).
Qed.

Lemma transicao_sem_linha_witness :
  marcar_perdida Cenario.julho (mkMundo Cenario.aberta ∅)
  = (Levanta DatabaseError,
     mkMundo (com_atualizado_em (com_etapa Cenario.aberta PERDIDA) Cenario.julho) ∅).
Proof.
  apply (transicao_sem_linha Cenario.julho (mkMundo Cenario.aberta ∅)).
  - apply lookup_empty.
  - discriminate.
Defined.

(** X3: a transition keeps instance and row in step.  When the row stored
    under the primary key of the instance equals the instance, neither
    [avancar_etapa] nor [marcar_perdida] raises [DatabaseError], and after
    the call, whether it returned or raised [ValidationError], the stored
    row again equals the instance. *)
Theorem transicao_mantem_sincronia agora w :
  tabela w !! pk (objeto w) = Some (objeto w) ->
  (avancar_etapa agora w).1 ≠ Levanta DatabaseError ∧
  tabela (avancar_etapa agora w).2 !! pk (objeto w)
    = Some (objeto (avancar_etapa agora w).2) ∧
  (marcar_perdida agora w).1 ≠ Levanta DatabaseError ∧
  tabela (marcar_perdida agora w).2 !! pk (objeto w)
    = Some (objeto (marcar_perdida agora w).2).
Proof.
  intros Hl. rewrite avancar_etapa_run, marcar_perdida_run, Hl.
  destruct (etapa (objeto w)); simpl;
    rewrite ?lookup_insert_eq; repeat split; try discriminate; auto.
Qed.

Lemma transicao_mantem_sincronia_witness :
  tabela (avancar_etapa Cenario.julho (mkMundo Cenario.aberta Cenario.ops)).2 !! 2
  = Some (objeto (avancar_etapa Cenario.julho (mkMundo Cenario.aberta Cenario.ops)).2).
Proof.
  apply (transicao_mantem_sincronia Cenario.julho (mkMundo Cenario.aberta Cenario.ops)).
  vm_compute. reflexivity.
Defined.
(** ** The stage views: one request *)

Lemma posicao_ORDEM_ETAPAS e :
  e ≠ PERDIDA -> ORDEM_ETAPAS !! posicao e = Some e.
Proof. destruct e; simpl; congruence. Qed.

Lemma ORDEM_ETAPAS_posicao i e : ORDEM_ETAPAS !! i = Some e -> i = posicao e.
Proof.
  do 5 (destruct i as [|i]; [intros [= <-]; reflexivity|]).
  destruct i; discriminate.
Qed.

Lemma atende_atendida r t :
  bem_formada t -> atendida r t (atende r t).1 (atende r t).2.
Proof.
  intros Hwf. unfold atende.
  destruct (req_rota r) eqn:Hrota;
    unfold OportunidadeAvancarView_post, OportunidadePerdidaView_post;
    (destruct (t !! req_pk r) as [o|] eqn:Hk; [|by apply atendida_404]);
    pose proof (Hwf _ o Hk) as Hpk.
  all: destruct (eh_vendedor (req_user r) &&
                 negb (bool_decide (vendedor o = user_pk (req_user r)))) eqn:Hperm.
  all: try (apply andb_true_iff in Hperm as [Hu Hv%negb_true_iff%bool_decide_eq_false];
            by eapply atendida_negada).
  all: assert (Hown : eh_vendedor (req_user r) = true -> vendedor o = user_pk (req_user r))
         by (intros Hu; rewrite Hu in Hperm; cbn in Hperm;
             by apply negb_false_iff, bool_decide_eq_true in Hperm).
  all: rewrite ?avancar_etapa_run, ?marcar_perdida_run; cbn [objeto tabela];
       rewrite Hpk, Hk.
  all: destruct (etapa o) eqn:He; simpl.
  all: try (eapply (atendida_invalida r t o); [exact Hk|exact Hown|]; rewrite He; auto; fail).
  all: try (eapply (atendida_ok r t o); [exact Hk|exact Hown|congruence|];
      rewrite Hrota, ?He; simpl; try reflexivity; split; [congruence|reflexivity]).
  all: eapply (atendida_ok r t o PERDIDA);
         [exact Hk|exact Hown|congruence|rewrite Hrota; reflexivity].
Qed.

Lemma evolui_refl o : evolui o o.
Proof. repeat split; auto. Qed.

Lemma evolui_trans o1 o2 o3 : evolui o1 o2 -> evolui o2 o3 -> evolui o1 o3.
Proof.
  intros (A1 & A2 & A3 & A4) (B1 & B2 & B3 & B4). repeat split.
  - congruence.
  - intros H. rewrite (A2 H) in *. auto.
  - auto.
  - lia.
Qed.

(** One request: the table stays well formed, no row appears or
    disappears, and each row evolves. *)
Lemma atende_evolui r t :
  bem_formada t ->
  bem_formada (atende r t).2 ∧
  ∀ k, match t !! k with
       | None => (atende r t).2 !! k = None
       | Some o => ∃ o', (atende r t).2 !! k = Some o' ∧ evolui o o'
       end.
Proof.
  intros Hwf. pose proof (atende_atendida r t Hwf) as H.
  destruct (atende r t) as [resp t']. cbn [fst snd] in *.
  assert (Hsame : bem_formada t ∧
            ∀ k, match t !! k with
                 | None => t !! k = None
                 | Some o => ∃ o', t !! k = Some o' ∧ evolui o o'
                 end).
  { split; [done|]. intros k. destruct (t !! k) eqn:E; [|done].
    eexists. split; [done|]. apply evolui_refl. }
  inversion H as [Hk| o Hk Hu Hv | o msg Hk Hown He | o prox Hk Hown Hf Hrota];
    subst; try exact Hsame.
  clear Hsame. split.
  - intros k o' [[<- <-]|[Hne Hk']]%lookup_insert_Some.
    + simpl. by apply Hwf.
    + by apply Hwf.
  - intros k. destruct (decide (req_pk r = k)) as [<-|Hne].
    + rewrite Hk, lookup_insert_eq. eexists. split; [done|].
      repeat split; try done.
      * simpl. destruct (req_rota r).
        -- destruct Hrota as [Hp Hi]. intros Hpd. done.
        -- by subst prox.
      * simpl. destruct (req_rota r).
        -- destruct Hrota as [Hp Hi]. apply ORDEM_ETAPAS_posicao in Hi. lia.
        -- subst prox. destruct (etapa o); simpl; lia.
    + rewrite lookup_insert_ne by done. destruct (t !! k) eqn:E; [|done].
      eexists. split; [done|]. apply evolui_refl.
Qed.

(** Any sequence of requests. *)
Lemma atende_todas_evolui l : ∀ t,
  bem_formada t ->
  bem_formada (atende_todas l t) ∧
  ∀ k, match t !! k with
       | None => atende_todas l t !! k = None
       | Some o => ∃ o', atende_todas l t !! k = Some o' ∧ evolui o o'
       end.
Proof.
  induction l as [|r l IH]; intros t Hwf.
  - split; [done|]. intros k. simpl. destruct (t !! k) eqn:E; [|done].
    eexists. split; [done|]. apply evolui_refl.
  - destruct (atende_evolui r t Hwf) as [Hwf1 H1].
    destruct (IH _ Hwf1) as [Hwf2 H2].
    change (atende_todas (r :: l) t) with (atende_todas l (atende r t).2).
    split; [done|]. intros k. specialize (H1 k). specialize (H2 k).
    destruct (t !! k) as [o|].
    + destruct H1 as (o1 & E1 & Ev1). rewrite E1 in H2.
      destruct H2 as (o2 & E2 & Ev2). exists o2. split; [done|].
      by eapply evolui_trans.
    + by rewrite H1 in H2.
Qed.

Lemma Cenario_ops_bem_formada : bem_formada Cenario.ops.
Proof.
  intros k o Hk. unfold Cenario.ops in Hk.
  repeat (apply lookup_insert_Some in Hk as [[<- <-]|[_ Hk]]; [reflexivity|]).
  by rewrite lookup_empty in Hk.
Qed.

(** X4: the responses of the two stage views.  On a table whose rows are
    stored under their primary keys, a [post] answers 404 exactly when no
    row has the requested key; it is refused with [PermissionDenied]
    exactly when the row exists, the user is a seller and the opportunity
    belongs to another user; the only error of the service that can come
    through is a [ValidationError]; a redirect goes to
    [sales:oportunidade_detail] of the requested key; and a request that
    fails, for any reason, leaves the table as it was. *)
Theorem atende_respostas r t :
  bem_formada t ->
  ((atende r t).1 = Falha Http404 ↔ t !! req_pk r = None) ∧
  ((atende r t).1 = Falha PermissionDenied ↔
   ∃ o, t !! req_pk r = Some o ∧ eh_vendedor (req_user r) = true ∧
        vendedor o ≠ user_pk (req_user r)) ∧
  (∀ e, (atende r t).1 = Falha (DoServico e) -> ∃ msg, e = ValidationError msg) ∧
  (∀ nome k, (atende r t).1 = Redirect nome k ->
             nome = "sales:oportunidade_detail" ∧ k = req_pk r) ∧
  (∀ e, (atende r t).1 = Falha e -> (atende r t).2 = t).
Proof.
  intros Hwf. pose proof (atende_atendida r t Hwf) as H.
  destruct (atende r t) as [resp t']. cbn [fst snd] in *.
  inversion H as [Hk| o Hk Hu Hv | o msg Hk Hown He | o prox Hk Hown Hf Hrota]; subst.
  all: split; [split; [intros E|intros E]|].
  all: try discriminate E; try reflexivity; try congruence.
  all: try (split; [split; [intros E2|intros E2]|]).
  all: try discriminate E2; try reflexivity; eauto.
  all: try (destruct E2 as (o' & Ho & Hu' & Hv'); rewrite Hk in Ho; try discriminate Ho;
            injection Ho as <-; exfalso; auto; fail).
  all: repeat split; try discriminate; try reflexivity.
  all: try (intros e [= <-]; eauto; fail).
  all: congruence.
Qed.

Lemma atende_respostas_witness :
  (atende (mkRequisicao oportunidade_avancar (mkUsuario 8 (Some true)) 2
             Cenario.julho) Cenario.ops).2 = Cenario.ops.
Proof.
  apply (atende_respostas (mkRequisicao oportunidade_avancar
           (mkUsuario 8 (Some true)) 2 Cenario.julho) Cenario.ops
           Cenario_ops_bem_formada) with (e := PermissionDenied).
  reflexivity.
Defined.

(** X5: no sequence of requests to the two stage views creates, deletes
    or renames a row.  After any list of requests the rows are still
    stored under their primary keys, a key without a row still has none,
    and every row keeps all its fields other than the stage and the update
    time. *)
Theorem atende_todas_linhas l t :
  bem_formada t ->
  bem_formada (atende_todas l t) ∧
  (∀ k, t !! k = None -> atende_todas l t !! k = None) ∧
  (∀ k o, t !! k = Some o ->
     ∃ o', atende_todas l t !! k = Some o' ∧ outros_campos o' = outros_campos o).
Proof.
  intros Hwf. destruct (atende_todas_evolui l t Hwf) as [Hwf' H].
  split; [done|]. split.
  - intros k Hk. specialize (H k). by rewrite Hk in H.
  - intros k o Hk. specialize (H k). rewrite Hk in H.
    destruct H as (o' & E & Ev & _). eauto.
Qed.

Lemma atende_todas_linhas_witness :
  bem_formada
    (atende_todas
       [mkRequisicao oportunidade_avancar (mkUsuario 7 (Some true)) 2 Cenario.julho;
        mkRequisicao oportunidade_perdida (mkUsuario 1 None) 4 Cenario.julho]
       Cenario.ops).
Proof.
  apply (atende_todas_linhas
           [mkRequisicao oportunidade_avancar (mkUsuario 7 (Some true)) 2 Cenario.julho;
            mkRequisicao oportunidade_perdida (mkUsuario 1 None) 4 Cenario.julho]
           Cenario.ops).
  exact Cenario_ops_bem_formada.
Defined.

(** X6: a closed opportunity is final.  Whatever requests are sent to
    the two stage views, by whatever users, a row in stage [FECHAMENTO]
    stays exactly as it is, update time included. *)
Theorem atende_todas_fechada l t k o :
  bem_formada t -> t !! k = Some o -> etapa o = FECHAMENTO ->
  atende_todas l t !! k = Some o.
Proof.
  intros Hwf Hk He. destruct (atende_todas_evolui l t Hwf) as [_ H].
  specialize (H k). rewrite Hk in H. destruct H as (o' & E & _ & Hf & _).
  by rewrite E, (Hf He).
Qed.

Lemma atende_todas_fechada_witness :
  atende_todas
    [mkRequisicao oportunidade_avancar (mkUsuario 7 (Some true)) 1 Cenario.julho;
     mkRequisicao oportunidade_perdida (mkUsuario 1 None) 1 Cenario.julho]
    Cenario.ops !! 1 = Some Cenario.fechada.
Proof.
  apply (atende_todas_fechada
           [mkRequisicao oportunidade_avancar (mkUsuario 7 (Some true)) 1 Cenario.julho;
            mkRequisicao oportunidade_perdida (mkUsuario 1 None) 1 Cenario.julho]
           Cenario.ops 1 Cenario.fechada).
  - exact Cenario_ops_bem_formada.
  - vm_compute. reflexivity.
  - reflexivity.
Defined.

(** X7: a lost opportunity stays lost.  Whatever requests are sent to
    the two stage views, a row in stage [PERDIDA] is in stage [PERDIDA]
    afterwards. *)
Theorem atende_todas_perdida l t k o :
  bem_formada t -> t !! k = Some o -> etapa o = PERDIDA ->
  ∃ o', atende_todas l t !! k = Some o' ∧ etapa o' = PERDIDA.
Proof.
  intros Hwf Hk He. destruct (atende_todas_evolui l t Hwf) as [_ H].
  specialize (H k). rewrite Hk in H. destruct H as (o' & E & _ & _ & Hp & _).
  eauto.
Qed.

Lemma atende_todas_perdida_witness :
  ∃ o', atende_todas
          [mkRequisicao oportunidade_perdida (mkUsuario 8 (Some true)) 3 Cenario.julho;
           mkRequisicao oportunidade_avancar (mkUsuario 1 None) 3 Cenario.julho]
          Cenario.ops !! 3 = Some o' ∧ etapa o' = PERDIDA.
Proof.
  apply (atende_todas_perdida
           [mkRequisicao oportunidade_perdida (mkUsuario 8 (Some true)) 3 Cenario.julho;
            mkRequisicao oportunidade_avancar (mkUsuario 1 None) 3 Cenario.julho]
           Cenario.ops 3 Cenario.perdida).
  - exact Cenario_ops_bem_formada.
  - vm_compute. reflexivity.
  - reflexivity.
Defined.

(** X8: the pipeline never moves backwards.  After any list of requests
    to the two stage views, if the stage of a row before and its stage
    after are both in [ORDEM_ETAPAS], the position after is not smaller
    than the position before. *)
Theorem atende_todas_nunca_recua l t k o :
  bem_formada t -> t !! k = Some o ->
  ∃ o', atende_todas l t !! k = Some o' ∧
        ∀ i j, ORDEM_ETAPAS !! i = Some (etapa o) ->
               ORDEM_ETAPAS !! j = Some (etapa o') -> (i <= j)%nat.
Proof.
  intros Hwf Hk. destruct (atende_todas_evolui l t Hwf) as [_ H].
  specialize (H k). rewrite Hk in H. destruct H as (o' & E & _ & _ & _ & Hpos).
  exists o'. split; [done|]. intros i j Hi%ORDEM_ETAPAS_posicao Hj%ORDEM_ETAPAS_posicao.
  lia.
Qed.

Lemma atende_todas_nunca_recua_witness :
  ∃ o', atende_todas
          [mkRequisicao oportunidade_avancar (mkUsuario 7 (Some true)) 2 Cenario.julho;
           mkRequisicao oportunidade_avancar (mkUsuario 1 None) 2 Cenario.julho]
          Cenario.ops !! 2 = Some o' ∧
        ∀ i j, ORDEM_ETAPAS !! i = Some (etapa Cenario.aberta) ->
               ORDEM_ETAPAS !! j = Some (etapa o') -> (i <= j)%nat.
Proof.
  apply (atende_todas_nunca_recua
           [mkRequisicao oportunidade_avancar (mkUsuario 7 (Some true)) 2 Cenario.julho;
            mkRequisicao oportunidade_avancar (mkUsuario 1 None) 2 Cenario.julho]
           Cenario.ops 2 Cenario.aberta).
  - exact Cenario_ops_bem_formada.
  - vm_compute. reflexivity.
Defined.

(** X9: sellers cannot touch the opportunities of others.  If every
    request of a list comes from a seller who is not the seller of the
    opportunity [o], the row of [o] is unchanged after the whole list,
    whatever keys the requests name. *)
Theorem atende_todas_outro_vendedor l : ∀ t k o,
  bem_formada t -> t !! k = Some o ->
  Forall (λ r, eh_vendedor (req_user r) = true ∧
               user_pk (req_user r) ≠ vendedor o) l ->
  atende_todas l t !! k = Some o.
Proof.
  induction l as [|r l IH]; intros t k o Hwf Hk Hl; [done|].
  apply Forall_cons in Hl as [[Hu Hv] Hl].
  change (atende_todas (r :: l) t) with (atende_todas l (atende r t).2).
  destruct (atende_evolui r t Hwf) as [Hwf1 _].
  apply IH; [done| |done].
  pose proof (atende_atendida r t Hwf) as H.
  destruct (atende r t) as [resp t']. cbn [fst snd] in *.
  inversion H as [Hk'| o1 Hk' _ _ | o1 msg Hk' _ _ | o1 prox Hk' Hown _ _];
    subst; try done.
  destruct (decide (req_pk r = k)) as [<-|Hne].
  - rewrite Hk in Hk'. injection Hk' as <-. specialize (Hown Hu). congruence.
  - by rewrite lookup_insert_ne.
Qed.

Lemma atende_todas_outro_vendedor_witness :
  atende_todas
    [mkRequisicao oportunidade_avancar (mkUsuario 8 (Some true)) 2 Cenario.julho;
     mkRequisicao oportunidade_perdida (mkUsuario 8 (Some true)) 2 Cenario.julho]
    Cenario.ops !! 2 = Some Cenario.aberta.
Proof.
  apply (atende_todas_outro_vendedor
           [mkRequisicao oportunidade_avancar (mkUsuario 8 (Some true)) 2 Cenario.julho;
            mkRequisicao oportunidade_perdida (mkUsuario 8 (Some true)) 2 Cenario.julho]
           Cenario.ops 2 Cenario.aberta).
  - exact Cenario_ops_bem_formada.
  - vm_compute. reflexivity.
  - repeat constructor; simpl; lia.
Defined.

(** ** Transitions and the amounts of the targets *)

Lemma sum_where_perm (P : Oportunidade -> Prop) `{!∀ o, Decision (P o)} l l' :
  l ≡ₚ l' -> (sum_where P l == sum_where P l')%Q.
Proof.
  intros Hp. induction Hp as [|x l l' _ IH|x y l|l1 l2 l3 _ IH1 _ IH2]; simpl.
  - reflexivity.
  - destruct (decide (P x)); rewrite IH; reflexivity.
  - destruct (decide (P x)), (decide (P y)); ring.
  - by rewrite IH1.
Qed.

Lemma rows_insert_fresh (t : gmap Z Oportunidade) k v :
  t !! k = None -> rows (<[k:=v]> t) ≡ₚ v :: rows t.
Proof. intros H. unfold rows. by rewrite map_to_list_insert. Qed.

Lemma rows_delete (t : gmap Z Oportunidade) k v :
  t !! k = Some v -> rows t ≡ₚ v :: rows (delete k t).
Proof. intros H. unfold rows. by rewrite <- (map_to_list_delete t k v H). Qed.

(** The sum after one row is replaced. *)
Lemma sum_where_update (P : Oportunidade -> Prop) `{!∀ o, Decision (P o)}
    (t : gmap Z Oportunidade) k v v' :
  t !! k = Some v ->
  (sum_where P (rows (<[k:=v']> t))
   == sum_where P (rows t)
      - (if decide (P v) then dval (valor_estimado v) else 0)
      + (if decide (P v') then dval (valor_estimado v') else 0))%Q.
Proof.
  intros Hk. rewrite <- insert_delete_eq.
  rewrite (sum_where_perm P _ _
             (rows_insert_fresh (delete k t) k v' (lookup_delete_eq t k))).
  rewrite (sum_where_perm P _ _ (rows_delete t k v Hk)). simpl.
  destruct (decide (P v)), (decide (P v')); ring.
Qed.

Lemma sum_where_insert (P : Oportunidade -> Prop) `{!∀ o, Decision (P o)}
    (t : gmap Z Oportunidade) k v' :
  t !! k = None ->
  (sum_where P (rows (<[k:=v']> t))
   == sum_where P (rows t)
      + (if decide (P v') then dval (valor_estimado v') else 0))%Q.
Proof.
  intros Hk. rewrite (sum_where_perm P _ _ (rows_insert_fresh t k v' Hk)). simpl.
  destruct (decide (P v')); ring.
Qed.

Lemma filter_aberta_do_mes ops vend m a :
  filter (λ o, etapa o ∉ [FECHAMENTO; PERDIDA])
    (filter (λ o, vendedor o = vend ∧ month (criado_em o) = m ∧
                  year (criado_em o) = a) (rows ops))
  = filter (aberta_do_mes vend m a) (rows ops).
Proof.
  rewrite list_filter_filter. apply list_filter_iff. intros o.
  unfold aberta_do_mes. rewrite !not_elem_of_cons. split.
  - intros [(Hf & Hp & _) (Hv & Hm & Ha)]. done.
  - intros (Hv & Hm & Ha & Hf & Hp). repeat split; try done.
    apply not_elem_of_nil.
Qed.

Lemma calcular_pipeline_dval ops vend m a :
  (dval (calcular_pipeline ops vend m a)
   == sum_where (aberta_do_mes vend m a) (rows ops))%Q.
Proof.
  unfold calcular_pipeline. rewrite filter_aberta_do_mes.
  rewrite dval_total_or_Sum, sum_where_filter. reflexivity.
Qed.

(** X10: what an advance does to the amounts of the targets.  When
    [avancar_etapa] returns on an instance in step with its row, the
    realized amount of a seller and period grows by the estimated value of
    the opportunity exactly when the opportunity was in [NEGOCIACAO],
    belongs to that seller and the time of the call falls in that period,
    and is otherwise unchanged; the pipeline amount shrinks by that value
    exactly when the opportunity was in [NEGOCIACAO], belongs to the seller
    and was created in the period, and is otherwise unchanged. *)
Theorem avancar_etapa_metas agora w o' vend m a :
  tabela w !! pk (objeto w) = Some (objeto w) ->
  (avancar_etapa agora w).1 = Retorna o' ->
  (dval (calcular_realizado (tabela (avancar_etapa agora w).2) vend m a)
   == dval (calcular_realizado (tabela w) vend m a)
      + (if decide (etapa (objeto w) = NEGOCIACAO ∧ vendedor (objeto w) = vend ∧
                    month agora = m ∧ year agora = a)
         then dval (valor_estimado (objeto w)) else 0))%Q ∧
  (dval (calcular_pipeline (tabela (avancar_etapa agora w).2) vend m a)
   == dval (calcular_pipeline (tabela w) vend m a)
      - (if decide (etapa (objeto w) = NEGOCIACAO ∧ vendedor (objeto w) = vend ∧
                    month (criado_em (objeto w)) = m ∧
                    year (criado_em (objeto w)) = a)
         then dval (valor_estimado (objeto w)) else 0))%Q.
Proof.
  intros Hl Hok. rewrite !calcular_realizado_dval, !calcular_pipeline_dval.
  rewrite avancar_etapa_run in *. rewrite Hl in *.
  destruct w as [o t]. cbn [objeto tabela] in *.
  destruct (etapa o) eqn:He; simpl in Hok |- *; try discriminate Hok;
    rewrite !(sum_where_update _ t (pk o) o _ Hl);
    unfold fechada_no_mes, aberta_do_mes; simpl;
    (split; repeat case_decide; try ring; exfalso; intuition congruence).
Qed.

Lemma avancar_etapa_metas_witness :
  (dval (calcular_realizado
           (tabela (avancar_etapa Cenario.julho
                      (mkMundo Cenario.sem_meta Cenario.ops)).2) 8 7 2024)
   == dval (calcular_realizado Cenario.ops 8 7 2024)
      + dval (valor_estimado Cenario.sem_meta))%Q ∧
  (dval (calcular_pipeline
           (tabela (avancar_etapa Cenario.julho
                      (mkMundo Cenario.sem_meta Cenario.ops)).2) 8 6 2024)
   == dval (calcular_pipeline Cenario.ops 8 6 2024)
      - dval (valor_estimado Cenario.sem_meta))%Q.
Proof.
  split.
  - apply (avancar_etapa_metas Cenario.julho (mkMundo Cenario.sem_meta Cenario.ops)
             (com_atualizado_em (com_etapa Cenario.sem_meta FECHAMENTO) Cenario.julho)
             8 7 2024).
    + vm_compute. reflexivity.
    + vm_compute. reflexivity.
  - apply (avancar_etapa_metas Cenario.julho (mkMundo Cenario.sem_meta Cenario.ops)
             (com_atualizado_em (com_etapa Cenario.sem_meta FECHAMENTO) Cenario.julho)
             8 6 2024).
    + vm_compute. reflexivity.
    + vm_compute. reflexivity.
Defined.

(** X11: what marking as lost does to the amounts of the targets.  When
    [marcar_perdida] returns on an instance in step with its row, no
    realized amount changes, and the pipeline amount of a seller and
    period shrinks by the estimated value of the opportunity exactly when
    the opportunity was not lost already, belongs to that seller and was
    created in that period. *)
Theorem marcar_perdida_metas agora w o' vend m a :
  tabela w !! pk (objeto w) = Some (objeto w) ->
  (marcar_perdida agora w).1 = Retorna o' ->
  (dval (calcular_realizado (tabela (marcar_perdida agora w).2) vend m a)
   == dval (calcular_realizado (tabela w) vend m a))%Q ∧
  (dval (calcular_pipeline (tabela (marcar_perdida agora w).2) vend m a)
   == dval (calcular_pipeline (tabela w) vend m a)
      - (if decide (etapa (objeto w) ≠ PERDIDA ∧ vendedor (objeto w) = vend ∧
                    month (criado_em (objeto w)) = m ∧
                    year (criado_em (objeto w)) = a)
         then dval (valor_estimado (objeto w)) else 0))%Q.
Proof.
  intros Hl Hok. rewrite !calcular_realizado_dval, !calcular_pipeline_dval.
  rewrite marcar_perdida_run in *. rewrite Hl in *.
  destruct w as [o t]. cbn [objeto tabela] in *.
  destruct (etapa o) eqn:He; simpl in Hok |- *; try discriminate Hok;
    rewrite !(sum_where_update _ t (pk o) o _ Hl);
    unfold fechada_no_mes, aberta_do_mes; simpl;
    (split; repeat case_decide; try ring; exfalso; intuition congruence).
Qed.

Lemma marcar_perdida_metas_witness :
  (dval (calcular_pipeline
           (tabela (marcar_perdida Cenario.julho
                      (mkMundo Cenario.aberta Cenario.ops)).2) 7 6 2024)
   == dval (calcular_pipeline Cenario.ops 7 6 2024)
      - dval (valor_estimado Cenario.aberta))%Q.
Proof.
  apply (marcar_perdida_metas Cenario.julho (mkMundo Cenario.aberta Cenario.ops)
           (com_atualizado_em (com_etapa Cenario.aberta PERDIDA) Cenario.julho)
           7 6 2024).
  - vm_compute. reflexivity.
  - vm_compute. reflexivity.
Defined.

(** X12: what creating an opportunity does.  If the column refuses the
    value, [criar_oportunidade] raises that error and the table is
    unchanged.  Otherwise, with a fresh primary key, it returns the
    instance with the value as given, stores under the new key the row
    with the value as the column holds it, and leaves every other row
    alone; no realized amount changes, and the pipeline amount of a
    seller and period grows by the stored value exactly when the
    opportunity is created for that seller at a time of that period. *)
Theorem criar_oportunidade_metas coluna criado atualizado novo_pk tit cli
    vend_novo valor descr t :
  t !! novo_pk = None ->
  (∀ e, coluna valor = Levanta e ->
        criar_oportunidade coluna criado atualizado novo_pk tit cli vend_novo
          valor descr t = (Levanta e, t)) ∧
  (∀ guardado, coluna valor = Retorna guardado ->
     ∃ t', criar_oportunidade coluna criado atualizado novo_pk tit cli vend_novo
             valor descr t
           = (Retorna (mkOportunidade novo_pk tit cli vend_novo valor descr
                         PROSPECCAO criado atualizado), t') ∧
           t' !! novo_pk
           = Some (mkOportunidade novo_pk tit cli vend_novo guardado descr
                     PROSPECCAO criado atualizado) ∧
           (∀ k, k ≠ novo_pk -> t' !! k = t !! k) ∧
           (∀ vend m a,
              (dval (calcular_realizado t' vend m a)
               == dval (calcular_realizado t vend m a))%Q ∧
              (dval (calcular_pipeline t' vend m a)
               == dval (calcular_pipeline t vend m a)
                  + (if decide (vend_novo = vend ∧ month criado = m ∧
                                year criado = a)
                     then dval guardado else 0))%Q)).
Proof.
  intros Hk. unfold criar_oportunidade. split.
  - intros e ->. reflexivity.
  - intros guardado ->. eexists. split; [reflexivity|].
    split; [apply lookup_insert_eq|].
    split; [intros k Hne; by apply lookup_insert_ne|].
    intros vend m a.
    rewrite !calcular_realizado_dval, !calcular_pipeline_dval.
    rewrite !(sum_where_insert _ t novo_pk _ Hk).
    unfold fechada_no_mes, aberta_do_mes; simpl.
    split; repeat case_decide; try ring; exfalso; intuition congruence.
Qed.

Lemma criar_oportunidade_metas_witness :
  ∃ t', criar_oportunidade coluna_2_casas Cenario.julho Cenario.julho 9 "Novo" 10 7
          (mkDecimal 12005 (-1)) "primeiro contato" Cenario.ops
        = (Retorna (mkOportunidade 9 "Novo" 10 7 (mkDecimal 12005 (-1))
                      "primeiro contato" PROSPECCAO Cenario.julho Cenario.julho),
           t') ∧
        t' !! 9 = Some (mkOportunidade 9 "Novo" 10 7 (mkDecimal 120050 (-2))
                          "primeiro contato" PROSPECCAO Cenario.julho Cenario.julho) ∧
        (dval (calcular_pipeline t' 7 7 2024)
         == dval (calcular_pipeline Cenario.ops 7 7 2024)
            + dval (mkDecimal 120050 (-2)))%Q.
Proof.
  destruct (criar_oportunidade_metas coluna_2_casas Cenario.julho Cenario.julho 9
              "Novo" 10 7 (mkDecimal 12005 (-1)) "primeiro contato" Cenario.ops)
    as [_ H].
  - vm_compute. reflexivity.
  - destruct (H (mkDecimal 120050 (-2))) as (t' & Hrun & Hrow & _ & Hsum).
    + vm_compute. reflexivity.
    + exists t'. split; [exact Hrun|]. split; [exact Hrow|].
      exact (proj2 (Hsum 7 7 2024)).
Defined.

Lemma avancar_varias_posicao l : ∀ w linha0,
  tabela w !! pk (objeto w) = Some linha0 ->
  etapa (objeto w) ≠ PERDIDA ->
  pk (objeto (avancar_varias l w)) = pk (objeto w) ∧
  (∃ linha, tabela (avancar_varias l w) !! pk (objeto w) = Some linha ∧
            outros_campos linha = outros_campos linha0 ∧
            (etapa linha0 = etapa (objeto w) ->
             etapa linha = etapa (objeto (avancar_varias l w)))) ∧
  posicao (etapa (objeto (avancar_varias l w)))
  = Nat.min (posicao (etapa (objeto w)) + length l) 4.
Proof.
  induction l as [|agora l IH]; intros w linha0 Hs Hp.
  - simpl. split; [done|]. split; [eauto|].
    destruct (etapa (objeto w)); simpl; congruence.
  - change (avancar_varias (agora :: l) w)
      with (avancar_varias l (avancar_etapa agora w).2).
    assert (H1 : ∃ linha1,
                 tabela (avancar_etapa agora w).2 !! pk (objeto (avancar_etapa agora w).2)
                 = Some linha1 ∧
                 outros_campos linha1 = outros_campos linha0 ∧
                 (etapa linha0 = etapa (objeto w) ->
                  etapa linha1 = etapa (objeto (avancar_etapa agora w).2)) ∧
                 pk (objeto (avancar_etapa agora w).2) = pk (objeto w) ∧
                 etapa (objeto (avancar_etapa agora w).2) ≠ PERDIDA ∧
                 posicao (etapa (objeto (avancar_etapa agora w).2))
                 = Nat.min (posicao (etapa (objeto w)) + 1) 4).
    { rewrite avancar_etapa_run, Hs.
      destruct (etapa (objeto w)) eqn:He; try congruence; simpl;
        rewrite ?lookup_insert_eq, ?He; eexists;
        (split; [first [reflexivity | exact Hs]|]);
        repeat split; try done. }
    destruct H1 as (linha1 & Hs1 & Ho1 & He1 & Hpk & Hp1 & Hpos).
    destruct (IH _ linha1 Hs1 Hp1) as (Hpk2 & (linha & Hl & Ho & He) & Hpos2).
    rewrite Hpk in *. split; [done|]. split.
    + exists linha. split; [done|]. split; [congruence|]. auto.
    + rewrite Hpos2, Hpos. simpl length. lia.
Qed.

(** X13: repeated advances.  For an instance that has a row and whose
    stage, at position [p] of [ORDEM_ETAPAS], is not PERDIDA: after [n]
    calls of [avancar_etapa] the stage is the entry of [ORDEM_ETAPAS] at
    position [min (p + n) 4]; the row keeps its columns other than stage
    and update time and, if it had the stage of the instance before, it
    has the stage of the instance after; and once [p + n] is 4 or more, a
    further call raises [ValidationError]. *)
Theorem avancar_varias_etapas l w linha0 :
  tabela w !! pk (objeto w) = Some linha0 ->
  etapa (objeto w) ≠ PERDIDA ->
  ORDEM_ETAPAS !! Nat.min (posicao (etapa (objeto w)) + length l) 4
    = Some (etapa (objeto (avancar_varias l w))) ∧
  (∃ linha, tabela (avancar_varias l w) !! pk (objeto w) = Some linha ∧
            outros_campos linha = outros_campos linha0 ∧
            (etapa linha0 = etapa (objeto w) ->
             etapa linha = etapa (objeto (avancar_varias l w)))) ∧
  ((4 <= posicao (etapa (objeto w)) + length l)%nat ->
   ∀ depois, ∃ msg, (avancar_etapa depois (avancar_varias l w)).1
                    = Levanta (ValidationError msg)).
Proof.
  intros Hs Hp.
  destruct (avancar_varias_posicao l w linha0 Hs Hp) as (_ & Hrow & Hpos).
  assert (Hne : etapa (objeto (avancar_varias l w)) ≠ PERDIDA).
  { intros E. rewrite E in Hpos. simpl in Hpos. lia. }
  split; [|split; [done|]].
  - rewrite <- Hpos. by apply posicao_ORDEM_ETAPAS.
  - intros Hlen depois. rewrite avancar_etapa_run.
    destruct (etapa (objeto (avancar_varias l w))) eqn:He; simpl in Hpos;
      try lia; try congruence; eauto.
Qed.

Lemma avancar_varias_etapas_witness :
  ORDEM_ETAPAS !! 4%nat
    = Some (etapa (objeto (avancar_varias [Cenario.julho; Cenario.julho; Cenario.julho]
                             (mkMundo Cenario.aberta Cenario.ops)))) ∧
  ∃ msg, (avancar_etapa Cenario.julho
            (avancar_varias [Cenario.julho; Cenario.julho; Cenario.julho]
               (mkMundo Cenario.aberta Cenario.ops))).1
         = Levanta (ValidationError msg).
Proof.
  destruct (avancar_varias_etapas [Cenario.julho; Cenario.julho; Cenario.julho]
              (mkMundo Cenario.aberta Cenario.ops) Cenario.aberta)
    as (Hst & _ & Hfim).
  - vm_compute. reflexivity.
  - discriminate.
  - split; [exact Hst|]. apply Hfim. simpl. lia.
Defined.

(** ** Commercial targets: status, errors and the percentage *)

(** X14: the status of a target does not get worse when the pipeline
    grows.  With the statuses ordered RISCO, ATENCAO, OK, for a fixed
    target a pipeline of greater or equal value gives a status at least as
    good. *)
Theorem calcular_status_meta_monotone valor_meta p p' :
  (dval p <= dval p')%Q ->
  (nivel (calcular_status_meta valor_meta p)
   <= nivel (calcular_status_meta valor_meta p'))%nat.
Proof.
  intros Hle. unfold calcular_status_meta, geb.
  destruct (leb valor_meta (of_int 0)); [done|].
  destruct (leb (mul valor_meta (mkDecimal 15 (-1))) p) eqn:E1.
  { apply leb_dval in E1.
    assert (leb (mul valor_meta (mkDecimal 15 (-1))) p' = true) as ->; [|done].
    apply leb_dval. by apply (Qle_trans _ (dval p)). }
  destruct (leb valor_meta p) eqn:E2.
  { apply leb_dval in E2.
    assert (leb valor_meta p' = true) as ->.
    { apply leb_dval. by apply (Qle_trans _ (dval p)). }
    destruct (leb (mul valor_meta (mkDecimal 15 (-1))) p'); vm_compute; lia. }
  destruct (leb (mul valor_meta (mkDecimal 15 (-1))) p'), (leb valor_meta p');
    vm_compute; lia.
Qed.

Lemma calcular_status_meta_monotone_witness :
  (nivel (calcular_status_meta (of_int 100) (of_int 99))
   <= nivel (calcular_status_meta (of_int 100) (of_int 120)))%nat.
Proof.
  apply (calcular_status_meta_monotone (of_int 100) (of_int 99) (of_int 120)).
  vm_compute. discriminate.
Defined.

Lemma percentual_de_excecao r vm e :
  percentual_de r vm = Levanta e -> e = InvalidOperation.
Proof.
  unfold percentual_de. destruct (gtb vm (of_int 0)) eqn:Hg; [|discriminate].
  apply gtb_zero in Hg. unfold div.
  destruct (Z.eqb_spec (coef vm) 0) as [|_]; [lia|].
  destruct (coef r =? 0).
  - destruct (round _ 1); [discriminate|]. by intros [= <-].
  - destruct (if 0 <=? _ then _ else _) as [c rem].
    destruct (if rem =? 0 then _ else _) as [c1 e1].
    destruct (round _ 1); [discriminate|]. by intros [= <-].
Qed.

Lemma objects_get_excecao ms vend m a e :
  objects_get ms vend m a = Levanta e -> e = MultipleObjectsReturned.
Proof.
  unfold objects_get. destruct (filter _ _) as [|x [|y l]]; try discriminate.
  by intros [= <-].
Qed.

Lemma obter_meta_vendedor_excecao hoje bd vend m a e :
  obter_meta_vendedor hoje bd vend m a = Levanta e ->
  e = MultipleObjectsReturned ∨ e = InvalidOperation.
Proof.
  unfold obter_meta_vendedor. destruct (resolve_mes_ano hoje m a) as [m' a'].
  destruct (objects_get _ _ _ _) as [meta|e'] eqn:Hget.
  - destruct (percentual_de _ _) as [p|e'] eqn:Hp; [discriminate|].
    intros [= <-]. right. by eapply percentual_de_excecao.
  - intros [= <-]. left. by eapply objects_get_excecao.
Qed.

Lemma laco_metas_excecao relogio bd m a ms : ∀ i acc e,
  laco_metas relogio bd m a i ms acc = Levanta e ->
  e = MultipleObjectsReturned ∨ e = InvalidOperation.
Proof.
  induction ms as [|meta ms IH]; intros i acc e; simpl; [discriminate|].
  destruct (obter_meta_vendedor _ _ _ _ _) as [d|e'] eqn:E.
  - apply IH.
  - intros [= <-]. by eapply obter_meta_vendedor_excecao.
Qed.

(** X15: the division by the target is never a division by zero.
    Whatever the tables hold, a target of 0 or below included, neither
    [obter_meta_vendedor] nor [listar_metas_vendedores] raises the error
    of a division by zero: the quotient is computed only under
    [valor_meta > 0]. *)
Theorem metas_sem_divisao_por_zero hoje relogio bd vend m a :
  obter_meta_vendedor hoje bd vend m a ≠ Levanta DivisionByZero ∧
  listar_metas_vendedores hoje relogio bd m a ≠ Levanta DivisionByZero.
Proof.
  split.
  - intros E. by destruct (obter_meta_vendedor_excecao _ _ _ _ _ _ E).
  - unfold listar_metas_vendedores. destruct (resolve_mes_ano hoje m a) as [m' a'].
    destruct (laco_metas _ _ _ _ _ _ _) as [r|e'] eqn:E; [discriminate|].
    intros [= ->]. by destruct (laco_metas_excecao _ _ _ _ _ _ _ _ E).
Qed.

(** X16: [obter_meta_vendedor] raises [MultipleObjectsReturned] exactly
    when two different rows of the targets' table are for the seller and
    the period the call resolves to. *)
Theorem obter_meta_vendedor_duplicada hoje bd vend m a :
  obter_meta_vendedor hoje bd vend m a = Levanta MultipleObjectsReturned ↔
  ∃ k1 k2 x1 x2,
    k1 ≠ k2 ∧ metas bd !! k1 = Some x1 ∧ metas bd !! k2 = Some x2 ∧
    (meta_vendedor x1 = vend ∧ mes x1 = (resolve_mes_ano hoje m a).1 ∧
     ano x1 = (resolve_mes_ano hoje m a).2) ∧
    (meta_vendedor x2 = vend ∧ mes x2 = (resolve_mes_ano hoje m a).1 ∧
     ano x2 = (resolve_mes_ano hoje m a).2).
Proof.
  rewrite <- (rows_filter_two
    (λ x, meta_vendedor x = vend ∧ mes x = (resolve_mes_ano hoje m a).1 ∧
          ano x = (resolve_mes_ano hoje m a).2) (metas bd)).
  unfold obter_meta_vendedor. destruct (resolve_mes_ano hoje m a) as [m' a'].
  cbn [fst snd]. unfold objects_get.
  destruct (filter _ (rows (metas bd))) as [|x [|y l]]; simpl.
  1: split; [discriminate|lia].
  1: match goal with
        | |- context [percentual_de ?r ?v] => destruct (percentual_de r v) eqn:Hp
        end; (split; [|lia]); try discriminate;
       intros [= ->]; apply percentual_de_excecao in Hp; discriminate.
  split; [lia|done].
Qed.

Lemma round_half_even_mono q q' :
  (q <= q')%Q -> round_half_even q <= round_half_even q'.
Proof.
  intros Hle. unfold round_half_even.
  pose proof (Qfloor_resp_le q q' Hle) as Hf.
  pose proof (Qfloor_le q') as Hl'. pose proof (Qlt_floor q) as Hu.
  set (f := Qfloor q) in *. set (f' := Qfloor q') in *.
  destruct (Z.eq_dec f f') as [E|Hne].
  - rewrite <- E in *.
    destruct (q - inject_Z f ?= 1 # 2)%Q eqn:C1;
      destruct (q' - inject_Z f ?= 1 # 2)%Q eqn:C2;
      try (destruct (Z.even f); lia).
    + apply Qeq_alt in C1. apply Qlt_alt in C2. lra.
    + apply Qgt_alt in C1. apply Qeq_alt in C2. lra.
    + apply Qgt_alt in C1. apply Qlt_alt in C2. lra.
  - assert (f + 1 <= f') by lia.
    destruct (q - inject_Z f ?= 1 # 2)%Q, (q' - inject_Z f' ?= 1 # 2)%Q;
      try destruct (Z.even f); try destruct (Z.even f'); lia.
Qed.

(** X17: the percentage does not decrease when more is realized.  For a
    positive target and two realized amounts within the precision bounds
    of the percentage computation, the amount of greater or equal value
    gets a percentage of greater or equal value; both computations
    return. *)
Theorem percentual_de_monotone r1 r2 vm :
  0 < coef vm ->
  -3 <= expo r1 - expo vm ->
  Z.abs (coef r1) * 10 ^ (expo r1 - expo vm + 3) < 10 ^ (prec - 1) ->
  -3 <= expo r2 - expo vm ->
  Z.abs (coef r2) * 10 ^ (expo r2 - expo vm + 3) < 10 ^ (prec - 1) ->
  (dval r1 <= dval r2)%Q ->
  ∃ p1 p2, percentual_de r1 vm = Retorna p1 ∧ percentual_de r2 vm = Retorna p2 ∧
           (dval p1 <= dval p2)%Q.
Proof.
  intros Hvm Hd1 Hb1 Hd2 Hb2 Hle.
  rewrite (percentual_de_positive r1 vm Hvm Hd1 Hb1).
  rewrite (percentual_de_positive r2 vm Hvm Hd2 Hb2).
  eexists _, _. split; [reflexivity|]. split; [reflexivity|].
  unfold dval at 1 4. cbn [coef expo].
  apply Qmult_le_compat_r; [|by compute].
  rewrite <- Zle_Qle. apply round_half_even_mono.
  apply dval_pos_iff in Hvm.
  assert (0 < / dval vm)%Q as Hinv by (by apply Qinv_lt_0_compat).
  unfold Qdiv. 
  apply Qmult_le_compat_r; [|by compute].
  apply Qmult_le_compat_r; [|by compute].
  apply Qmult_le_compat_r; [done|by apply Qlt_le_weak].
Qed.

Lemma percentual_de_monotone_witness :
  ∃ p1 p2,
    percentual_de (mkDecimal 60000 (-2)) (mkDecimal 100000 (-2)) = Retorna p1 ∧
    percentual_de (mkDecimal 60049 (-2)) (mkDecimal 100000 (-2)) = Retorna p2 ∧
    (dval p1 <= dval p2)%Q.
Proof.
  apply (percentual_de_monotone (mkDecimal 60000 (-2)) (mkDecimal 60049 (-2))
           (mkDecimal 100000 (-2))).
  - reflexivity.
  - discriminate.
  - reflexivity.
  - discriminate.
  - reflexivity.
  - discriminate.
Defined.

(** ** The allowed hosts *)

Section HostsProofs.
Import Hosts.

Lemma lstrip_nil_iff s : lstrip s = [] ↔ Forall (λ c, isspace c = true) s.
Proof.
  induction s as [|c s IH]; simpl; [by split; [constructor|]|].
  destruct (isspace c) eqn:E.
  - rewrite IH. split; [by constructor|]. by intros [_ ?]%Forall_cons.
  - split; [done|]. intros [? _]%Forall_cons. congruence.
Qed.

Lemma lstrip_head s c u : lstrip s = c :: u -> isspace c = false.
Proof.
  induction s as [|d s IH]; simpl; [done|].
  destruct (isspace d) eqn:E; [done|]. by intros [= <- <-].
Qed.

Lemma lstrip_id c u : isspace c = false -> lstrip (c :: u) = c :: u.
Proof. intros E. simpl. by rewrite E. Qed.

Lemma lstrip_elem s c : c ∈ lstrip s -> c ∈ s.
Proof.
  induction s as [|d s IH]; simpl; [done|].
  destruct (isspace d); [|done]. intros H. right. by apply IH.
Qed.

Lemma lstrip_snoc s c :
  lstrip (s ++ [c])
  = match lstrip s with
    | [] => if isspace c then [] else [c]
    | r => r ++ [c]
    end.
Proof.
  induction s as [|d s IH]; simpl; [done|].
  destruct (isspace d); [done|]. reflexivity.
Qed.

Lemma rstrip_cons c s :
  rstrip (c :: s)
  = match rstrip s with
    | [] => if isspace c then [] else [c]
    | r => c :: r
    end.
Proof.
  unfold rstrip. rewrite reverse_cons, lstrip_snoc.
  destruct (lstrip (reverse s)) as [|d r].
  - by destruct (isspace c).
  - rewrite reverse_app, reverse_singleton, reverse_cons.
    destruct (reverse r ++ [d]) eqn:E; [|done].
    by apply app_nil in E as [_ ?].
Qed.

Lemma rstrip_elem s c : c ∈ rstrip s -> c ∈ s.
Proof.
  unfold rstrip. rewrite elem_of_reverse. intros H%lstrip_elem.
  by apply elem_of_reverse.
Qed.

Lemma rstrip_nil_iff s : rstrip s = [] ↔ Forall (λ c, isspace c = true) s.
Proof.
  unfold rstrip. rewrite <- Forall_reverse, <- lstrip_nil_iff.
  split; intros H.
  - apply (f_equal reverse) in H. by rewrite reverse_involutive in H.
  - by rewrite H.
Qed.

Lemma rstrip_last s u c : rstrip s = u ++ [c] -> isspace c = false.
Proof.
  unfold rstrip. intros H. apply (f_equal reverse) in H.
  rewrite reverse_involutive, reverse_app in H. simpl in H.
  by apply lstrip_head in H.
Qed.

Lemma rstrip_idemp s : rstrip (rstrip s) = rstrip s.
Proof.
  unfold rstrip. rewrite reverse_involutive. f_equal.
  destruct (lstrip (reverse s)) as [|c u] eqn:E; [done|].
  apply lstrip_id. by apply lstrip_head in E.
Qed.

Lemma strip_nil_iff s : strip s = [] ↔ Forall (λ c, isspace c = true) s.
Proof.
  unfold strip. rewrite rstrip_nil_iff. split.
  - intros H. apply lstrip_nil_iff.
    destruct (lstrip s) as [|c u] eqn:E; [done|].
    apply lstrip_head in E. apply Forall_cons in H as [? _]. congruence.
  - intros H. apply lstrip_nil_iff in H. rewrite H. constructor.
Qed.

(** A stripped string starts and ends with a character that is not
    white space, and stripping it again changes nothing. *)
Lemma strip_clean s :
  strip (strip s) = strip s ∧
  (∀ c u, strip s = c :: u -> isspace c = false) ∧
  (∀ u c, strip s = u ++ [c] -> isspace c = false).
Proof.
  unfold strip. destruct (lstrip s) as [|c u] eqn:E.
  { change (rstrip []) with (@nil Z). split; [reflexivity|].
    split; [intros ? ? H; discriminate H|intros [|? ?] ? H; discriminate H]. }
  pose proof (lstrip_head _ _ _ E) as Hc. rewrite rstrip_cons.
  assert (Hhd : ∃ r, (match rstrip u with
                      | [] => if isspace c then [] else [c]
                      | d :: r' => c :: d :: r'
                      end) = c :: r).
  { destruct (rstrip u); rewrite ?Hc; eauto. }
  destruct Hhd as [r Hr].
  rewrite <- rstrip_cons in *. rewrite Hr. split; [|split].
  - rewrite (lstrip_id c r Hc), <- Hr. apply rstrip_idemp.
  - by intros ? ? [= <- _].
  - intros u' c' E'. rewrite <- Hr in E'. by apply rstrip_last in E'.
Qed.

Lemma strip_elem s c : c ∈ strip s -> c ∈ s.
Proof. unfold strip. intros H%rstrip_elem. by apply lstrip_elem. Qed.

Lemma split_not_nil sep s : split sep s ≠ [].
Proof.
  induction s as [|c s IH]; simpl; [done|].
  destruct (c =? sep); [done|]. by destruct (split sep s).
Qed.

(** The characters of the pieces are those of the string other than the
    separator. *)
Lemma split_elem sep s c :
  (∃ p, p ∈ split sep s ∧ c ∈ p) ↔ c ∈ s ∧ c ≠ sep.
Proof.
  induction s as [|d s IH]; simpl.
  - split.
    + intros (p & Hp & Hc). apply list_elem_of_singleton in Hp. subst.
      by apply elem_of_nil in Hc.
    + intros [H _]. by apply elem_of_nil in H.
  - pose proof (split_not_nil sep s) as Hne.
    destruct (Z.eqb_spec d sep) as [->|Hd].
    + split.
      * intros (p & [->|Hp]%elem_of_cons & Hc); [by apply elem_of_nil in Hc|].
        destruct (proj1 IH) as [? ?]; [eauto|]. split; [by right|done].
      * intros [[->|Hc]%elem_of_cons Hsep]; [done|].
        destruct (proj2 IH (conj Hc Hsep)) as (p & Hp & Hcp).
        exists p. split; [by right|done].
    + destruct (split sep s) as [|p ps] eqn:E; [done|]. split.
      * intros (q & [->|Hq]%elem_of_cons & Hc).
        -- apply elem_of_cons in Hc as [->|Hc]; [split; [left|done]|].
           destruct (proj1 IH) as [? ?]; [exists p; split; [left|done]|].
           split; [by right|done].
        -- destruct (proj1 IH) as [? ?]; [exists q; split; [by right|done]|].
           split; [by right|done].
      * intros [[->|Hc]%elem_of_cons Hsep].
        -- exists (d :: p). split; left.
        -- destruct (proj2 IH (conj Hc Hsep)) as (q & [->|Hq]%elem_of_cons & Hcq).
           ++ exists (d :: p). split; [left|by right].
           ++ exists q. split; [by right|done].
Qed.

Lemma split_no_sep sep s p : p ∈ split sep s -> sep ∉ p.
Proof.
  intros Hp Hs. by destruct (proj1 (split_elem sep s sep)) as [_ ?]; [eauto|].
Qed.

Lemma split_one sep p : sep ∉ p -> split sep p = [p].
Proof.
  induction p as [|c p IH]; simpl; [done|]. intros H.
  apply not_elem_of_cons in H as [Hc Hp].
  destruct (Z.eqb_spec c sep) as [|_]; [congruence|]. by rewrite IH.
Qed.

Lemma split_app_sep sep p s :
  sep ∉ p -> split sep (p ++ sep :: s) = p :: split sep s.
Proof.
  induction p as [|c p IH]; simpl; intros H.
  - by rewrite Z.eqb_refl.
  - apply not_elem_of_cons in H as [Hc Hp].
    destruct (Z.eqb_spec c sep) as [|_]; [congruence|]. by rewrite IH.
Qed.

Lemma split_join sep l :
  l ≠ [] -> Forall (λ p, sep ∉ p) l -> split sep (join sep l) = l.
Proof.
  induction l as [|p l IH]; [done|]. intros _ [Hp Hl]%Forall_cons.
  destruct l as [|q l]; simpl.
  - by apply split_one.
  - rewrite split_app_sep by done. f_equal. by apply IH.
Qed.

Lemma isspace_comma : isspace comma = false.
Proof. reflexivity. Qed.

(** What holds of every entry of the list. *)
Lemma ALLOWED_HOSTS_entry environ h :
  h ∈ ALLOWED_HOSTS environ ->
  h ≠ [] ∧ (comma ∉ h) ∧ strip h = h.
Proof.
  unfold ALLOWED_HOSTS. intros (p & -> & [Hne Hp]%list_elem_of_filter)%list_elem_of_fmap.
  split; [done|]. split.
  - intros Hc%strip_elem. by apply split_no_sep in Hp.
  - apply strip_clean.
Qed.

(** X18: every entry of [ALLOWED_HOSTS] is clean.  Whatever the
    environment, an entry contains no comma, is not empty, and begins and
    ends with a character that is not white space. *)
Theorem ALLOWED_HOSTS_clean environ h :
  h ∈ ALLOWED_HOSTS environ ->
  (comma ∉ h) ∧
  (∃ c u, h = c :: u ∧ isspace c = false) ∧
  (∃ u c, h = u ++ [c] ∧ isspace c = false).
Proof.
  intros Hh. destruct (ALLOWED_HOSTS_entry environ h Hh) as (Hne & Hc & Hs).
  split; [done|]. destruct (strip_clean h) as (_ & Hhd & Hlast). rewrite Hs in *.
  split.
  - destruct h as [|c u]; [done|]. exists c, u. split; [done|]. by eapply Hhd.
  - destruct (decide (h = [])) as [|Hn]; [done|].
    destruct (exists_last Hn) as (u & c & ->). exists u, c. split; [done|]. by eapply Hlast.
Qed.

Lemma ALLOWED_HOSTS_clean_witness :
  (Hosts.comma ∉ [97; 46; 98]) ∧
  (∃ c u, [97; 46; 98] = c :: u ∧ Hosts.isspace c = false) ∧
  (∃ u c, [97; 46; 98] = u ++ [c] ∧ Hosts.isspace c = false).
Proof.
  apply (ALLOWED_HOSTS_clean
           (<["DJANGO_ALLOWED_HOSTS" := [32; 97; 46; 98; 32; 44; 32; 44; 99]]> ∅)
           [97; 46; 98]).
  vm_compute. left.
Defined.

(** X19: writing the list back and reading it again.  If the variable
    [DJANGO_ALLOWED_HOSTS] is set to the entries of [ALLOWED_HOSTS] joined
    with commas, the setting computes the same list. *)
Theorem ALLOWED_HOSTS_join environ :
  ALLOWED_HOSTS (<["DJANGO_ALLOWED_HOSTS" := join comma (ALLOWED_HOSTS environ)]> environ)
  = ALLOWED_HOSTS environ.
Proof.
  set (L := ALLOWED_HOSTS environ).
  assert (HL : Forall (λ h, h ≠ [] ∧ (comma ∉ h) ∧ strip h = h) L).
  { apply Forall_forall. intros h Hh. by apply (ALLOWED_HOSTS_entry environ). }
  unfold ALLOWED_HOSTS at 1. unfold getenv. rewrite lookup_insert_eq. simpl.
  destruct L as [|h L'] eqn:E; [done|].
  rewrite split_join; [|done|by eapply Forall_impl; [exact HL|]; intros ? (_ & ? & _)].
  clear E. induction HL as [|x l (Hne & _ & Hs) _ IH]; [done|].
  rewrite filter_cons. rewrite Hs.
  destruct (decide (x ≠ [])); [|done]. by rewrite fmap_cons, Hs, IH.
Qed.

(** X20: [ALLOWED_HOSTS] is empty exactly when the variable
    [DJANGO_ALLOWED_HOSTS], or the empty string when it is unset, consists
    of commas and white space only. *)
Theorem ALLOWED_HOSTS_empty environ :
  ALLOWED_HOSTS environ = [] ↔
  ∀ c, c ∈ getenv environ "DJANGO_ALLOWED_HOSTS" -> c = comma ∨ isspace c = true.
Proof.
  unfold ALLOWED_HOSTS. set (v := getenv environ "DJANGO_ALLOWED_HOSTS").
  split.
  - intros H%fmap_nil_inv c Hc. destruct (decide (c = comma)) as [|Hne]; [by left|right].
    destruct (proj2 (split_elem comma v c) (conj Hc Hne)) as (p & Hp & Hcp).
    assert (strip p = []) as Hs.
    { destruct (decide (strip p = [])) as [|Hn]; [done|]. exfalso.
      eapply (filter_nil_not_elem_of _ _ p H); done. }
    apply strip_nil_iff in Hs. by apply (proj1 (Forall_forall _ _) Hs).
  - intros H. rewrite (filter_nil_not_elem (λ h, strip h ≠ [])); [done|].
    intros p Hp Hn. apply Hn.
    apply strip_nil_iff, Forall_forall. intros c Hc.
    destruct (proj1 (split_elem comma v c)) as [Hcv Hne]; [eauto|].
    by destruct (H c Hcv).
Qed.

End HostsProofs.
